(** * Timing primitives and replica roles of the raft replica

  Shallow embedding of [timer.py] ([Timer], [Stopwatch]) and
  [ReplicaState.py] ([ReplicaState]).

  Python's [float] is IEEE-754 binary64, which is what Rocq's primitive
  [float] is: [self.start_time + self.duration], [time.time() - self.start_time]
  and [>=] are the rounded binary64 operations.

  [time.time()] reads the wall clock.  The wall clock belongs to the
  environment and can be set, so the embedding takes it as an oracle: the
  [k]-th call of [time.time()] made by the run returns [clock k], and the
  program state threaded through the code is the number of calls made. *)

From Stdlib Require Import ZArith Lia Bool List PArith.
From Stdlib Require Import Floats.
Import ListNotations.

(** ** A state monad for code that reads the clock *)

Module PyTime.

Definition clock_t := nat -> float.

(** A computation receives the number of clock reads made so far and
    returns its value with the new count. *)
Definition M (A : Type) : Type := nat -> A * nat.

Definition ret {A} (a : A) : M A := fun k => (a, k).

Definition bind {A B} (c : M A) (f : A -> M B) : M B :=
  fun k => let (a, k') := c k in f a k'.

(** [time.time()] *)
Definition time (clock : clock_t) : M float := fun k => (clock k, S k).

(** The value of a computation started after [k] clock reads. *)
Definition eval {A} (c : M A) (k : nat) : A := fst (c k).

End PyTime.

Declare Scope py_scope.
Delimit Scope py_scope with py.
Notation "x <- c ;; k" := (PyTime.bind c (fun x => k))
  (at level 61, c at next level, right associativity) : py_scope.

(** The result of a call expression: it returns a value or raises. *)
Inductive exception := InvalidArgument | ValueError.

Inductive outcome (A : Type) : Type :=
| Returns (a : A)
| Raises (e : exception).
Arguments Returns {A} a.
Arguments Raises {A} e.

(** ** [class Timer] *)

Module Timer.
Section WithClock.
Variable clock : PyTime.clock_t.
Local Open Scope py_scope.
Local Open Scope float_scope.

(** The two attributes [__init__] sets. *)
Record t := mk { start_time : float; duration : float }.

(** [def __init__(self, duration)]: reads the clock, stores both attributes.
    There is no check of [duration]. *)
Definition __init__ (duration : float) : PyTime.M t :=
  now <- PyTime.time clock ;;
  PyTime.ret {| start_time := now; duration := duration |}.

(** The call expression [Timer(duration)].  [__init__] has no [raise]. *)
Definition new (duration : float) : PyTime.M (outcome t) :=
  self <- __init__ duration ;;
  PyTime.ret (Returns self).

(** [def is_done(self)]: [time.time() >= self.start_time + self.duration].
    The object after the call is returned beside the result: the method
    assigns no attribute.  ([a >= b] on floats is [b <= a].) *)
Definition is_done (self : t) : PyTime.M (bool * t) :=
  now <- PyTime.time clock ;;
  PyTime.ret ((start_time self + duration self <=? now), self).

(** [n] successive calls of [is_done] on the same object; the results in
    call order and the object after the last call. *)
Fixpoint poll (n : nat) (self : t) : PyTime.M (list bool * t) :=
  match n with
  | O => PyTime.ret ([], self)
  | S m =>
      r <- is_done self ;;
      rest <- poll m (snd r) ;;
      PyTime.ret (fst r :: fst rest, snd rest)
  end.

End WithClock.
End Timer.

(** ** [class Stopwatch] *)

Module Stopwatch.
Section WithClock.
Variable clock : PyTime.clock_t.
Local Open Scope py_scope.
Local Open Scope float_scope.

Record t := mk { start_time : float }.

(** [def __init__(self)] *)
Definition __init__ : PyTime.M t :=
  now <- PyTime.time clock ;;
  PyTime.ret {| start_time := now |}.

(** [def time_elapsed(self)]: [time.time() - self.start_time] *)
Definition time_elapsed (self : t) : PyTime.M (float * t) :=
  now <- PyTime.time clock ;;
  PyTime.ret (now - start_time self, self).

(** Two successive calls of [time_elapsed] on the same object: both values,
    in call order. *)
Definition twice (self : t) : PyTime.M (float * float) :=
  a <- time_elapsed self ;;
  b <- time_elapsed (snd a) ;;
  PyTime.ret (fst a, fst b).

End WithClock.
End Stopwatch.

(** ** [class ReplicaState(Enum)] *)

Inductive ReplicaState : Type := FOLLOWER | CANDIDATE | LEADER.

Module ReplicaStateEnum.

(** [member.value] *)
Definition value (r : ReplicaState) : Z :=
  match r with
  | FOLLOWER => 0
  | CANDIDATE => 1
  | LEADER => 2
  end%Z.

(** [list(ReplicaState)]: the members in definition order. *)
Definition members : list ReplicaState := [FOLLOWER; CANDIDATE; LEADER].

(** [ReplicaState(v)]: lookup by value, [ValueError] when no member has it. *)
Definition of_value (v : Z) : outcome ReplicaState :=
  match find (fun r => Z.eqb (value r) v) members with
  | Some r => Returns r
  | None => Raises ValueError
  end.

End ReplicaStateEnum.

(** ** The election controller *)

(** Modelled from the spec: the election controller, that is the transition
  function of the role model (the table of events by current role, with its
  side effects on the term and on the armed deadline).  The source files
  hold the role type only; the code that moves a replica between roles is
  not among them. *)
Module ElectionController.

(** Which deadline the controller's one live timer stands for. *)
Inductive deadline := ElectionDeadline | HeartbeatDeadline.

Record state := mk { role : ReplicaState; term : Z; armed : deadline }.

(** The inbound events of the table. *)
Inductive event :=
| election_timer_expires
| majority_granted
| append_or_heartbeat_received (peer_term : Z)
| heartbeat_timer_expires
| higher_term_observed (peer_term : Z).

(** The intents emitted to the RPC layer. *)
Inductive intent := RequestVote (t : Z) | Heartbeat (t : Z).

(** An event is applied, silently discarded (a stale message), or flagged
    (no entry of the table for the current role). *)
Inductive verdict :=
| Applied (s : state) (out : list intent)
| Discarded
| Flagged.

(** Every replica starts as a follower. *)
Definition startup : state :=
  {| role := FOLLOWER; term := 0; armed := ElectionDeadline |}.

Definition step (s : state) (e : event) : verdict :=
  match e with
  | election_timer_expires =>
      match role s with
      | FOLLOWER | CANDIDATE =>
          let t := (term s + 1)%Z in
          Applied {| role := CANDIDATE; term := t; armed := ElectionDeadline |}
                  [RequestVote t]
      | LEADER => Flagged
      end
  | majority_granted =>
      match role s with
      | CANDIDATE =>
          Applied {| role := LEADER; term := term s; armed := HeartbeatDeadline |}
                  [Heartbeat (term s)]
      | _ => Flagged
      end
  | append_or_heartbeat_received t =>
      if (term s <=? t)%Z
      then Applied {| role := FOLLOWER; term := t; armed := ElectionDeadline |} []
      else Discarded
  | heartbeat_timer_expires =>
      match role s with
      | LEADER =>
          Applied {| role := LEADER; term := term s; armed := HeartbeatDeadline |}
                  [Heartbeat (term s)]
      | _ => Flagged
      end
  | higher_term_observed t =>
      if (term s <? t)%Z
      then Applied {| role := FOLLOWER; term := t; armed := ElectionDeadline |} []
      else Discarded
  end.

(** The state after an event: a discarded or flagged event leaves it as it was. *)
Definition after (s : state) (e : event) : state :=
  match step s e with
  | Applied s' _ => s'
  | Discarded | Flagged => s
  end.

Definition run (s : state) (es : list event) : state := fold_left after es s.

(** An applied event that takes the replica into the CANDIDATE role: from
    another role, or anew by the election timer. *)
Definition enters_candidate (s : state) (e : event) (s' : state) : Prop :=
  (exists out, step s e = Applied s' out) /\ role s' = CANDIDATE.

End ElectionController.

(** ** Binary64 rounding, stated on integers

  What the proofs need of binary64 arithmetic.  Every finite binary64 number
  is an integer multiple of [2 ^ emin64]; [ival] is that integer.  A sum or a
  difference of two finite floats is the rounding of the exact integer sum,
  and [rounded] is the relation between an integer and its rounding to
  nearest, ties to even, on 53 bits. *)

Module Binary64.
Local Open Scope Z_scope.

(** The exponent of the least subnormal: [3 - emax - prec]. *)
Definition emin64 : Z := -1074.

(** Round to nearest, ties to even: one more unit when the round bit is set
    and the rest is not a tie towards an even mantissa. *)
Definition round_up (r s : bool) (q : Z) : Z :=
  if r && (s || Z.odd q) then 1 else 0.

(** The float of sign [sg] for the rounded mantissa [m] at exponent [e]:
    a mantissa that reached [2 ^ 53] moves to the next binade, an exponent
    above the largest one overflows to infinity. *)
Definition pack (sg : bool) (m e : Z) : spec_float :=
  if m =? 2 ^ 53
  then (if e + 1 <=? 971 then S754_finite sg (Z.to_pos (2 ^ 52)) (e + 1)
        else S754_infinity sg)
  else (if e <=? 971 then S754_finite sg (Z.to_pos m) e else S754_infinity sg).

(** [N] cut at bit [k]: the kept mantissa [q], the round bit [r] and the
    doubled rest [t]; [q] fills the 53 bits unless [k = 0] (subnormal range). *)
Definition splits (N q k : Z) (r : bool) (t : Z) : Prop :=
  0 <= k /\ 2 * N = q * 2 ^ (k + 1) + Z.b2z r * 2 ^ k + t /\ 0 <= t < 2 ^ k
  /\ 0 < q < 2 ^ 53 /\ (0 < k -> 2 ^ 52 <= q).

Definition rounded_pos (sg : bool) (N : Z) (res : spec_float) : Prop :=
  exists q k r t,
    splits N q k r t
    /\ res = pack sg (q + round_up r (negb (t =? 0)) q) (k + emin64).

(** Zero or finite: neither an infinity nor NaN. *)
Definition is_fz (x : spec_float) : bool :=
  match x with S754_zero _ | S754_finite _ _ _ => true | _ => false end.

(** The value of a finite float, in units of [2 ^ emin64]. *)
Definition ival (x : spec_float) : Z :=
  match x with
  | S754_finite s m e => cond_Zopp s (Zpos m * 2 ^ (e - emin64))
  | _ => 0
  end.

(** [res] is the rounding of [V * 2 ^ emin64]. *)
Definition rounded (V : Z) (res : spec_float) : Prop :=
  (V = 0 /\ exists s, res = S754_zero s)
  \/ (0 < V /\ rounded_pos false V res)
  \/ (V < 0 /\ rounded_pos true (- V) res).

End Binary64.

(** ** Clocks for the concrete runs

  Readings are seconds since the epoch; small numbers keep the runs readable. *)

Module Clocks.
Local Open Scope float_scope.

(** The clock does not move between the reads. *)
Definition frozen : PyTime.clock_t := fun _ => 1700000000.

(** The wall clock is set back after the second read: 100, 105, then 101. *)
Definition set_back : PyTime.clock_t :=
  fun k => match k with O => 100 | S O => 105 | _ => 101 end.

(** The clock only advances: 100, 103, then 106. *)
Definition advancing : PyTime.clock_t :=
  fun k => match k with O => 100 | S O => 103 | _ => 106 end.

End Clocks.

(** * Facts about binary64 arithmetic *)

Module Binary64Facts.
Import Binary64.
Local Open Scope Z_scope.

(** *** Digits, shifts and powers of two *)

Lemma fexp_eq e : fexp prec emax e = Z.max (e - 53) emin64.
Proof. reflexivity. Qed.

Lemma digits2_size m : digits2_pos m = Pos.size m.
Proof. induction m; simpl; congruence. Qed.

Lemma digits2_bounds m :
  2 ^ (Zpos (digits2_pos m) - 1) <= Zpos m < 2 ^ Zpos (digits2_pos m).
Proof.
  rewrite digits2_size. split.
  - pose proof (Pos.size_le m) as H.
    assert (Hz : Zpos (2 ^ Pos.size m) <= Zpos m~0) by exact H.
    rewrite Pos2Z.inj_pow in Hz.
    replace (Zpos (Pos.size m)) with (Z.succ (Zpos (Pos.size m) - 1)) in Hz by lia.
    rewrite Z.pow_succ_r in Hz by lia. lia.
  - pose proof (Pos.size_gt m) as H.
    assert (Hz : Zpos m < Zpos (2 ^ Pos.size m)) by exact H.
    now rewrite Pos2Z.inj_pow in Hz.
Qed.

Lemma iter_xO m d : Zpos (Pos.iter xO m d) = Zpos m * 2 ^ Zpos d.
Proof.
  rewrite Pos2Nat.inj_iter.
  rewrite <- (positive_nat_Z d).
  induction (Pos.to_nat d) as [|n IH].
  - simpl. lia.
  - rewrite Nat2Z.inj_succ, Z.pow_succ_r by lia. simpl nat_rect.
    rewrite Pos2Z.inj_xO, IH. ring.
Qed.

Lemma iter_pos_nat {A} (f : A -> A) p x :
  iter_pos f p x = Nat.iter (Pos.to_nat p) f x.
Proof.
  revert x. induction p as [p IH|p IH|]; intro x; simpl iter_pos.
  - rewrite !IH, Pos2Nat.inj_xI. 
    replace (S (2 * Pos.to_nat p))%nat with (Pos.to_nat p + (Pos.to_nat p + 1))%nat by lia.
    rewrite !Nat.iter_add. reflexivity.
  - rewrite !IH, Pos2Nat.inj_xO.
    replace (2 * Pos.to_nat p)%nat with (Pos.to_nat p + Pos.to_nat p)%nat by lia.
    rewrite Nat.iter_add. reflexivity.
  - reflexivity.
Qed.

Lemma shr_1_nonneg m r s :
  0 <= m -> shr_1 (Build_shr_record m r s) = Build_shr_record (Z.div2 m) (Z.odd m) (r || s).
Proof. destruct m as [|[p|p|]|p]; intros H; try reflexivity; lia. Qed.

(** After [n] right shifts of an exact record. *)
Lemma shr_iter_inv m0 n :
  0 <= m0 ->
  exists q r t,
    Nat.iter n shr_1 (Build_shr_record m0 false false)
      = Build_shr_record q r (negb (t =? 0))
    /\ 0 <= q
    /\ 2 * m0 = q * 2 ^ (Z.of_nat n + 1) + Z.b2z r * 2 ^ Z.of_nat n + t
    /\ 0 <= t < 2 ^ Z.of_nat n.
Proof.
  intros H0. induction n as [|n (q & r & t & E & Hq & Hs & Ht)].
  - exists m0, false, 0. change (Z.of_nat 0) with 0.
    change (2 ^ (0 + 1)) with 2. change (2 ^ 0) with 1.
    simpl Z.b2z. repeat split; try lia. 
  - exists (Z.div2 q), (Z.odd q), (Z.b2z r * 2 ^ Z.of_nat n + t).
    simpl Nat.iter. rewrite E, shr_1_nonneg by assumption.
    rewrite Nat2Z.inj_succ.
    assert (Hp : 0 < 2 ^ Z.of_nat n) by (apply Z.pow_pos_nonneg; lia).
    rewrite !Z.add_succ_l, !Z.pow_succ_r by lia.
    rewrite Z.pow_add_r, Z.pow_1_r in Hs by lia.
    pose proof (Z.div2_odd q) as Hd.
    repeat split.
    + f_equal. destruct r; simpl Z.b2z.
      * simpl orb. symmetry. apply negb_true_iff, Z.eqb_neq. lia.
      * rewrite Z.mul_0_l, Z.add_0_l. reflexivity.
    + rewrite Z.div2_div. apply Z.div_pos; lia.
    + rewrite Z.pow_add_r, Z.pow_1_r by lia. rewrite Hs. rewrite Hd at 1. ring.
    + destruct r; simpl Z.b2z; lia.
    + destruct r; simpl Z.b2z; lia.
Qed.

Lemma rne_round_up q r s :
  round_nearest_even q (loc_of_shr_record (Build_shr_record q r s)) = q + round_up r s q.
Proof.
  unfold round_up. rewrite <- Z.negb_even.
  destruct r, s; simpl; try destruct (Z.even q); simpl; lia.
Qed.

Lemma digits2_iter_xO m p :
  Zpos (digits2_pos (Pos.iter xO m p)) = Zpos (digits2_pos m) + Zpos p.
Proof.
  rewrite Pos2Nat.inj_iter, <- (positive_nat_Z p).
  induction (Pos.to_nat p) as [|n IH].
  - simpl. lia.
  - simpl nat_rect. simpl digits2_pos. rewrite Pos2Z.inj_succ, IH, Nat2Z.inj_succ. lia.
Qed.

Lemma pow2_pos k : 0 <= k -> 0 < 2 ^ k.
Proof. intros; apply Z.pow_pos_nonneg; lia. Qed.

Lemma pow2_split a b : 0 <= a -> 0 <= b -> 2 ^ (a + b) = 2 ^ a * 2 ^ b.
Proof. intros; apply Z.pow_add_r; assumption. Qed.

Lemma pow2_le a b : 0 <= a <= b -> 2 ^ a <= 2 ^ b.
Proof. intros; apply Z.pow_le_mono_r; lia. Qed.

Lemma pow2_lt_inv a b : 0 <= b -> 2 ^ a < 2 ^ b -> a < b.
Proof. intros Hb H. apply (Z.pow_lt_mono_r_iff 2); try lia. Qed.

(** First stage of [binary_round]: alignment on the target exponent. *)
Lemma align_splits m e :
  emin64 <= e ->
  let fe := fexp prec emax (Zpos (digits2_pos m) + e) in
  let '(mz, ez) := shl_align m e fe in
  exists q r t,
    shr_fexp prec emax (Zpos mz) ez loc_Exact
      = (Build_shr_record q r (negb (t =? 0)), fe)
    /\ splits (Zpos m * 2 ^ (e - emin64)) q (fe - emin64) r t.
Proof.
  intros He fe. 
  pose proof (digits2_bounds m) as Hd.
  set (d := Zpos (digits2_pos m)) in *.
  assert (Hfe : fe = Z.max (d + e - 53) emin64) by reflexivity.
  clearbody fe.
  assert (Hd0 : 0 < d) by (unfold d; lia).
  unfold shl_align. destruct (fe - e) as [|p|p] eqn:Hn.
  - (* no shift at all *)
    exists (Zpos m), false, 0.
    assert (Hfe' : fe = e) by lia. split.
    + unfold shr_fexp. change (Zdigits2 (Zpos m)) with d.
      rewrite fexp_eq, <- Hfe, Hn, Hfe'. reflexivity.
    + unfold splits. simpl Z.b2z. rewrite Hfe'.
      replace (e - emin64 + 1) with (Z.succ (e - emin64)) by lia.
      rewrite Z.pow_succ_r by lia.
      pose proof (pow2_pos (e - emin64)).
      repeat split; try lia.
      * assert (d <= 53) by lia. pose proof (pow2_le d 53). lia.
      * intros Hk. assert (d = 53) by lia.
        replace (d - 1) with 52 in Hd by lia. lia.
  - (* right shift by [p] *)
    assert (Hfe' : fe = d + e - 53) by lia.
    assert (Hp : Zpos p = d - 53) by lia.
    destruct (shr_iter_inv (Zpos m) (Pos.to_nat p)) as (q & r & t & E & Hq & Hs & Ht);
      [lia|].
    rewrite positive_nat_Z in Hs, Ht.
    exists q, r, (t * 2 ^ (e - emin64)).
    pose proof (pow2_pos (e - emin64)) as Hpe.
    pose proof (pow2_pos (Zpos p)) as Hpp.
    split.
    + unfold shr_fexp. change (Zdigits2 (Zpos m)) with d.
      rewrite fexp_eq, <- Hfe, Hn.
      unfold shr. rewrite iter_pos_nat. unfold shr_record_of_loc. rewrite E.
      f_equal; [|lia]. f_equal. f_equal.
      destruct (t =? 0) eqn:Et.
      * apply Z.eqb_eq in Et. subst t. reflexivity.
      * apply Z.eqb_neq in Et. symmetry. apply Z.eqb_neq. nia.
    + unfold splits.
      replace (fe - emin64) with (Zpos p + (e - emin64)) by lia.
      replace (Zpos p + (e - emin64) + 1) with ((Zpos p + 1) + (e - emin64)) by lia.
      rewrite !pow2_split by lia.
      rewrite pow2_split, Z.pow_1_r in Hs by lia.
      assert (H52 : 2 ^ (d - 1) = 2 ^ 52 * 2 ^ Zpos p).
      { rewrite <- pow2_split by lia. f_equal. lia. }
      assert (H53 : 2 ^ d = 2 ^ 53 * 2 ^ Zpos p).
      { rewrite <- pow2_split by lia. f_equal. lia. }
      rewrite H52, H53 in Hd.
      assert (Hb : 0 <= Z.b2z r <= 1) by (destruct r; simpl; lia).
      repeat split; try nia.
  - (* left shift by [p] *)
    assert (Hp : Zpos p = e - fe) by lia.
    exists (Zpos (Pos.iter xO m p)), false, 0. split.
    + unfold shr_fexp. unfold Zdigits2. rewrite digits2_iter_xO. fold d.
      rewrite fexp_eq.
      replace (d + Zpos p + fe) with (d + e) by lia.
      rewrite <- Hfe, Z.sub_diag. reflexivity.
    + unfold splits. rewrite iter_xO. simpl Z.b2z.
      replace (e - emin64) with (Zpos p + (fe - emin64)) by lia.
      replace (fe - emin64 + 1) with (Z.succ (fe - emin64)) by lia.
      rewrite Z.pow_succ_r, pow2_split by lia.
      pose proof (pow2_pos (fe - emin64)) as Hpe.
      pose proof (pow2_pos (Zpos p)) as Hpp.
      assert (Hdp : d + Zpos p <= 53) by lia.
      pose proof (pow2_le (d + Zpos p) 53) as H53.
      rewrite pow2_split in H53 by lia.
      repeat split; try nia.
      intros Hk. assert (d - 1 + Zpos p = 52) by lia.
      assert (H52 : 2 ^ 52 = 2 ^ (d - 1) * 2 ^ Zpos p).
      { rewrite <- pow2_split by lia. f_equal. lia. }
      nia.
Qed.

(** Second stage of [binary_round]: the carry into the next binade and the
    overflow test. *)
Lemma finish_pack sg m1 fe :
  0 < m1 <= 2 ^ 53 -> emin64 <= fe ->
  (let '(mrs, e') := shr_fexp prec emax m1 fe loc_Exact in
   match shr_m mrs with
   | Z0 => S754_zero sg
   | Zpos m => if e' <=? emax - prec then S754_finite sg m e' else S754_infinity sg
   | Zneg _ => S754_nan
   end) = pack sg m1 fe.
Proof.
  intros Hm Hfe. unfold pack. destruct (m1 =? 2 ^ 53) eqn:E.
  - apply Z.eqb_eq in E. subst m1.
    unfold shr_fexp. rewrite fexp_eq.
    change (Zdigits2 (2 ^ 53)) with 54.
    replace (Z.max (54 + fe - 53) emin64 - fe) with 1 by lia.
    reflexivity.
  - apply Z.eqb_neq in E.
    destruct m1 as [|p1|p1]; try lia.
    unfold shr_fexp. rewrite fexp_eq. unfold Zdigits2.
    pose proof (digits2_bounds p1) as Hd.
    assert (Hd1 : Zpos (digits2_pos p1) - 1 < 53).
    { apply pow2_lt_inv; lia. }
    destruct (Z.max (Zpos (digits2_pos p1) + fe - 53) emin64 - fe) eqn:En; try lia;
      reflexivity.
Qed.

Lemma binary_round_rounded sg m e :
  emin64 <= e ->
  rounded_pos sg (Zpos m * 2 ^ (e - emin64)) (binary_round prec emax sg m e).
Proof.
  intros He. unfold binary_round.
  pose proof (align_splits m e He) as HA. cbv zeta in HA.
  set (fe := fexp prec emax (Zpos (digits2_pos m) + e)) in *.
  assert (Hfe : emin64 <= fe) by (unfold fe; rewrite fexp_eq; lia).
  destruct (shl_align m e fe) as [mz ez].
  destruct HA as (q & r & t & E & HS).
  exists q, (fe - emin64), r, t. split; [exact HS|].
  unfold binary_round_aux. rewrite E.
  unfold shr_m at 1. rewrite rne_round_up.
  replace (fe - emin64 + emin64) with fe by lia.
  apply finish_pack; [|exact Hfe].
  destruct HS as (_ & _ & _ & Hq & _).
  unfold round_up. destruct (_ && _); lia.
Qed.

(** *** Rounding keeps the order *)

Lemma round_up_01 r s q : 0 <= round_up r s q <= 1.
Proof. unfold round_up; destruct (_ && _); lia. Qed.

Lemma splits_order N1 q1 k1 b1 t1 N2 q2 k2 b2 t2 :
  splits N1 q1 k1 b1 t1 -> splits N2 q2 k2 b2 t2 -> N1 <= N2 ->
  k1 < k2 \/
  (k1 = k2 /\
   q1 + round_up b1 (negb (t1 =? 0)) q1 <= q2 + round_up b2 (negb (t2 =? 0)) q2).
Proof.
  intros (Hk1 & Hs1 & Ht1 & Hq1 & Hc1) (Hk2 & Hs2 & Ht2 & Hq2 & Hc2) HN.
  replace (k1 + 1) with (Z.succ k1) in Hs1 by lia.
  replace (k2 + 1) with (Z.succ k2) in Hs2 by lia.
  rewrite Z.pow_succ_r in Hs1, Hs2 by lia.
  assert (Hb1 : 0 <= Z.b2z b1 <= 1) by (destruct b1; simpl; lia).
  assert (Hb2 : 0 <= Z.b2z b2 <= 1) by (destruct b2; simpl; lia).
  pose proof (pow2_pos k1 Hk1) as Hp1.
  pose proof (pow2_pos k2 Hk2) as Hp2.
  destruct (Z.lt_trichotomy k1 k2) as [Hlt|[Heq|Hgt]]; [now left| |exfalso].
  - right. split; [exact Heq|]. subst k2.
    set (P := 2 ^ k1) in *.
    pose proof (round_up_01 b1 (negb (t1 =? 0)) q1) as Hu1.
    pose proof (round_up_01 b2 (negb (t2 =? 0)) q2) as Hu2.
    destruct (Z.lt_trichotomy q1 q2) as [Hq|[Hq|Hq]]; [lia| |exfalso; nia].
    subst q2.
    assert (Hrem : Z.b2z b1 * P + t1 <= Z.b2z b2 * P + t2) by nia.
    unfold round_up in *.
    destruct b1; simpl andb; [|destruct (b2 && _); lia].
    destruct b2; simpl Z.b2z in Hrem; [|exfalso; lia].
    simpl andb.
    destruct (t1 =? 0) eqn:E1; simpl negb; simpl orb.
    + destruct (negb (t2 =? 0) || Z.odd q1) eqn:E2; 
        destruct (Z.odd q1); simpl in *; try lia; try discriminate.
    + apply Z.eqb_neq in E1.
      assert (E2 : (t2 =? 0) = false) by (apply Z.eqb_neq; lia).
      rewrite E2. simpl. lia.
  - assert (Hq1' : 2 ^ 52 <= q1) by (apply Hc1; lia).
    assert (HD : 2 ^ k1 = 2 ^ k2 * 2 ^ (k1 - k2)).
    { rewrite <- pow2_split by lia. f_equal. lia. }
    assert (HD2 : 2 <= 2 ^ (k1 - k2)).
    { change 2 with (2 ^ 1) at 1. apply pow2_le. lia. }
    set (P := 2 ^ k2) in *. set (D := 2 ^ (k1 - k2)) in *.
    rewrite HD in *. 
    assert (2 * N2 < 2 ^ 53 * (2 * P)) by nia.
    assert (2 ^ 52 * (2 * (P * D)) <= 2 * N1) by nia.
    nia.
Qed.

Lemma pack_le m1 e1 m2 e2 :
  0 < m1 <= 2 ^ 53 -> 0 < m2 <= 2 ^ 53 ->
  (e1 < e2 /\ 2 ^ 52 <= m2) \/ (e1 = e2 /\ m1 <= m2) ->
  SFleb (pack false m1 e1) (pack false m2 e2) = true.
Proof.
  intros H1 H2 H. unfold pack.
  destruct (m1 =? 2 ^ 53) eqn:E1; destruct (m2 =? 2 ^ 53) eqn:E2;
    [apply Z.eqb_eq in E1|apply Z.eqb_eq in E1|apply Z.eqb_neq in E1|apply Z.eqb_neq in E1];
    [apply Z.eqb_eq in E2|apply Z.eqb_neq in E2|apply Z.eqb_eq in E2|apply Z.eqb_neq in E2];
    repeat match goal with
           | |- context [?a <=? 971] => 
               let L := fresh "L" in destruct (Z.leb_spec a 971) as [L|L]
           end;
    try reflexivity; try (exfalso; lia);
    unfold SFleb, SFcompare;
    repeat match goal with
           | |- context [?a ?= ?b] =>
               let C := fresh "C" in destruct (Z.compare_spec a b) as [C|C|C]
           end;
    try reflexivity; try (exfalso; lia);
    rewrite Pos.compare_cont_spec; simpl Pos.switch_Eq;
    match goal with
    | |- context [(?a ?= ?b)%positive] =>
        let C := fresh "C" in destruct (Pos.compare_spec a b) as [C|C|C]
    end; try reflexivity; exfalso.
  all: try (rewrite <- (Z2Pos.id m1), <- (Z2Pos.id m2) in H by lia; lia).
  all: try (rewrite <- (Z2Pos.id m2) in H by lia; 
            assert (2 ^ 52 = Zpos (Z.to_pos (2 ^ 52))) by reflexivity; lia).
Qed.

Lemma pack_opp sg m e : SFopp (pack sg m e) = pack (negb sg) m e.
Proof.
  unfold pack. destruct (m =? 2 ^ 53), (e + 1 <=? 971), (e <=? 971); reflexivity.
Qed.

Lemma rounded_pos_opp sg N res :
  rounded_pos sg N res -> rounded_pos (negb sg) N (SFopp res).
Proof.
  intros (q & k & r & t & HS & ->). exists q, k, r, t. split; [exact HS|].
  apply pack_opp.
Qed.

Lemma SFleb_opp x y : SFleb (SFopp x) (SFopp y) = SFleb y x.
Proof.
  unfold SFleb, SFcompare.
  destruct x as [[]|[]| |[] mx ex], y as [[]|[]| |[] my ey]; simpl; try reflexivity;
    rewrite (Z.compare_antisym ex ey);
    destruct (ex ?= ey) eqn:C; simpl; try reflexivity;
    fold (Pos.compare mx my); fold (Pos.compare my mx);
    rewrite (Pos.compare_antisym my mx); destruct (my ?= mx)%positive; reflexivity.
Qed.

Lemma rounded_pos_shape sg N res :
  rounded_pos sg N res ->
  (exists m e, res = S754_finite sg m e) \/ res = S754_infinity sg.
Proof.
  intros (q & k & r & t & HS & ->). unfold pack.
  destruct (_ =? 2 ^ 53), (k + emin64 + 1 <=? 971), (k + emin64 <=? 971); eauto.
Qed.

Lemma rounded_pos_mono N1 N2 r1 r2 :
  rounded_pos false N1 r1 -> rounded_pos false N2 r2 -> N1 <= N2 ->
  SFleb r1 r2 = true.
Proof.
  intros (q1 & k1 & b1 & t1 & HS1 & ->) (q2 & k2 & b2 & t2 & HS2 & ->) HN.
  pose proof (splits_order _ _ _ _ _ _ _ _ _ _ HS1 HS2 HN) as HO.
  pose proof (round_up_01 b1 (negb (t1 =? 0)) q1) as Hu1.
  pose proof (round_up_01 b2 (negb (t2 =? 0)) q2) as Hu2.
  destruct HS1 as (Hk1 & _ & _ & Hq1 & _), HS2 as (Hk2 & _ & _ & Hq2 & Hc2).
  apply pack_le; lia.
Qed.

Lemma rounded_mono V1 V2 r1 r2 :
  rounded V1 r1 -> rounded V2 r2 -> V1 <= V2 -> SFleb r1 r2 = true.
Proof.
  intros [(E1 & s1 & ->)|[(P1 & R1)|(P1 & R1)]]
         [(E2 & s2 & ->)|[(P2 & R2)|(P2 & R2)]] HV;
    try (exfalso; lia); try reflexivity.
  - destruct (rounded_pos_shape _ _ _ R2) as [(m & e & ->)| ->]; reflexivity.
  - eapply rounded_pos_mono; eauto.
  - destruct (rounded_pos_shape _ _ _ R1) as [(m & e & ->)| ->]; reflexivity.
  - destruct (rounded_pos_shape _ _ _ R1) as [(m & e & ->)| ->];
      destruct (rounded_pos_shape _ _ _ R2) as [(m' & e' & ->)| ->]; reflexivity.
  - rewrite <- SFleb_opp.
    apply (rounded_pos_mono _ _ _ _ (rounded_pos_opp _ _ _ R2) (rounded_pos_opp _ _ _ R1)). lia.
Qed.

(** Validity of a finite float, spelled with numbers. *)
Lemma bounded_inv m e :
  bounded prec emax m e = true ->
  emin64 <= e <= 971 /\ Zpos m < 2 ^ 53 /\ (emin64 < e -> 2 ^ 52 <= Zpos m).
Proof.
  unfold bounded, canonical_mantissa. rewrite fexp_eq.
  intros H. apply andb_true_iff in H. destruct H as [Hc Hb].
  apply Z.eqb_eq in Hc. apply Z.leb_le in Hb.
  change (emax - prec) with 971 in Hb.
  pose proof (digits2_bounds m) as Hd.
  set (d := Zpos (digits2_pos m)) in *.
  assert (0 < d) by (unfold d; lia).
  repeat split; try lia.
  - assert (d <= 53) by lia. pose proof (pow2_le d 53). lia.
  - intros He. assert (d = 53) by lia. replace (d - 1) with 52 in Hd by lia. lia.
Qed.

Lemma valid_rounded x :
  valid_binary x = true -> is_fz x = true -> rounded (ival x) x.
Proof.
  destruct x as [s| | |s m e]; try discriminate; intros Hv _.
  - left. split; [reflexivity|eauto].
  - simpl in Hv. apply bounded_inv in Hv. destruct Hv as (He & Hm & Hc).
    pose proof (pow2_pos (e - emin64)) as Hp.
    assert (HR : rounded_pos s (Zpos m * 2 ^ (e - emin64)) (S754_finite s m e)).
    { exists (Zpos m), (e - emin64), false, 0. split.
      - unfold splits. simpl Z.b2z.
        replace (e - emin64 + 1) with (Z.succ (e - emin64)) by lia.
        rewrite Z.pow_succ_r by lia. repeat split; try lia.
      - unfold round_up, pack. simpl andb. rewrite Z.add_0_r.
        replace (e - emin64 + emin64) with e by lia.
        destruct (Z.eqb_spec (Zpos m) (2 ^ 53)); [lia|].
        destruct (Z.leb_spec e 971); [reflexivity|lia]. }
    assert (Hpos : 0 < Zpos m * 2 ^ (e - emin64)) by nia.
    unfold ival, cond_Zopp. destruct s.
    + right; right. split; [lia|]. rewrite Z.opp_involutive. exact HR.
    + right; left. split; [lia|]. exact HR.
Qed.

(** *** Addition and subtraction round the exact result *)

Lemma shl_align_val m e e' :
  e' <= e -> Zpos (fst (shl_align m e e')) = Zpos m * 2 ^ (e - e').
Proof.
  intros H. unfold shl_align. destruct (e' - e) as [|p|p] eqn:E; try lia; simpl fst.
  - replace (e - e') with 0 by lia. lia.
  - rewrite iter_xO. f_equal. f_equal. lia.
Qed.

Lemma normalize_rounded M e :
  emin64 <= e -> rounded (M * 2 ^ (e - emin64)) (binary_normalize prec emax M e false).
Proof.
  intros He. pose proof (pow2_pos (e - emin64)) as Hp.
  destruct M as [|p|p]; simpl binary_normalize.
  - left. split; [lia|eauto].
  - right; left. split; [nia|]. now apply binary_round_rounded.
  - right; right. split; [nia|].
    replace (- (Z.neg p * 2 ^ (e - emin64))) with (Zpos p * 2 ^ (e - emin64)) by lia.
    now apply binary_round_rounded.
Qed.

Lemma add_rounded x y :
  valid_binary x = true -> valid_binary y = true ->
  is_fz x = true -> is_fz y = true ->
  rounded (ival x + ival y) (SF64add x y).
Proof.
  intros Vx Vy Fx Fy.
  destruct x as [sx| | |sx mx ex]; try discriminate;
    destruct y as [sy| | |sy my ey]; try discriminate.
  - left. split; [reflexivity|]. destruct sx, sy; simpl; eauto.
  - change (SF64add (S754_zero sx) (S754_finite sy my ey)) with (S754_finite sy my ey).
    change (ival (S754_zero sx)) with 0. rewrite Z.add_0_l.
    now apply valid_rounded.
  - change (SF64add (S754_finite sx mx ex) (S754_zero sy)) with (S754_finite sx mx ex).
    change (ival (S754_zero sy)) with 0. rewrite Z.add_0_r.
    now apply valid_rounded.
  - pose proof (bounded_inv _ _ Vx) as (Hex & _).
    pose proof (bounded_inv _ _ Vy) as (Hey & _).
    unfold SF64add, SFadd. cbv zeta.
    set (ez := Z.min ex ey).
    assert (Hez : emin64 <= ez) by (unfold ez; lia).
    rewrite !shl_align_val by (unfold ez; lia).
    match goal with
    | |- rounded ?V (binary_normalize _ _ ?M _ _) =>
        replace V with (M * 2 ^ (ez - emin64))
    end.
    + now apply normalize_rounded.
    + unfold ival.
      replace (ex - emin64) with ((ex - ez) + (ez - emin64)) by lia.
      replace (ey - emin64) with ((ey - ez) + (ez - emin64)) by lia.
      rewrite !pow2_split by (unfold ez; lia).
      destruct sx, sy; unfold cond_Zopp; ring.
Qed.

Lemma SFsub_add_opp x y : SF64sub x y = SF64add x (SFopp y).
Proof.
  unfold SF64sub, SF64add, SFsub, SFadd.
  destruct x as [[]|[]| |sx mx ex], y as [[]|[]| |sy my ey]; try reflexivity.
  simpl SFopp. cbv zeta. f_equal.
  rewrite <- Z.add_opp_r. f_equal. destruct sy; simpl; reflexivity.
Qed.

Lemma valid_opp x : valid_binary (SFopp x) = valid_binary x.
Proof. destruct x; reflexivity. Qed.

Lemma is_fz_opp x : is_fz (SFopp x) = is_fz x.
Proof. destruct x; reflexivity. Qed.

(** On valid operands the order of [SFcompare] is the order of the values. *)
Lemma SFleb_ival x y :
  valid_binary x = true -> valid_binary y = true ->
  is_fz x = true -> is_fz y = true ->
  SFleb x y = true -> ival x <= ival y.
Proof.
  intros Vx Vy Fx Fy.
  destruct x as [sx| | |sx mx ex]; try discriminate;
    destruct y as [sy| | |sy my ey]; try discriminate; unfold SFleb, SFcompare.
  - pose proof (pow2_pos (ey - emin64)).
    pose proof (bounded_inv _ _ Vy) as (Hey & _).
    destruct sy; [discriminate|]. intros _. unfold ival, cond_Zopp. nia.
  - pose proof (bounded_inv _ _ Vx) as (Hex & _).
    pose proof (pow2_pos (ex - emin64)).
    destruct sx; [|discriminate]. intros _. unfold ival, cond_Zopp. nia.
  - pose proof (bounded_inv _ _ Vx) as (Hex & Hmx & Hcx).
    pose proof (bounded_inv _ _ Vy) as (Hey & Hmy & Hcy).
    pose proof (pow2_pos (ex - emin64)) as Hpx.
    pose proof (pow2_pos (ey - emin64)) as Hpy.
    assert (Hlt : forall m1 e1 m2 e2,
               emin64 <= e1 < e2 -> Zpos m1 < 2 ^ 53 -> 2 ^ 52 <= Zpos m2 ->
               Zpos m1 * 2 ^ (e1 - emin64) <= Zpos m2 * 2 ^ (e2 - emin64)).
    { intros m1 e1 m2 e2 He H1 H2.
      replace (e2 - emin64) with ((e2 - e1) + (e1 - emin64)) by lia.
      rewrite pow2_split by lia.
      pose proof (pow2_pos (e1 - emin64)).
      assert (2 <= 2 ^ (e2 - e1)).
      { change 2 with (2 ^ 1) at 1. apply pow2_le. lia. }
      set (P := 2 ^ (e1 - emin64)) in *. set (D := 2 ^ (e2 - e1)) in *.
      assert (Zpos m1 * P <= 2 ^ 53 * P) by nia.
      assert (2 ^ 53 * P <= Zpos m2 * 2 * P) by nia.
      assert (Zpos m2 * 2 * P <= Zpos m2 * D * P) by nia.
      lia. }
    fold (Pos.compare mx my).
    unfold ival, cond_Zopp.
    destruct sx, sy; try discriminate.
    + destruct (Z.compare_spec ex ey) as [C|C|C]; try discriminate.
      * subst ey. destruct (Pos.compare_spec mx my) as [D|D|D]; try discriminate;
          intros _; nia.
      * intros _. specialize (Hlt my ey mx ex). 
        assert (2 ^ 52 <= Zpos mx) by (apply Hcx; lia). lia.
    + intros _. nia.
    + destruct (Z.compare_spec ex ey) as [C|C|C]; try discriminate.
      * subst ey. destruct (Pos.compare_spec mx my) as [D|D|D]; try discriminate;
          intros _; nia.
      * intros _. specialize (Hlt mx ex my ey).
        assert (2 ^ 52 <= Zpos my) by (apply Hcy; lia). lia.
Qed.

Lemma rounded_bounds V r :
  rounded V r ->
  SFleb (S754_infinity true) r = true /\ SFleb r (S754_infinity false) = true.
Proof.
  intros [(_ & s & ->)|[(_ & R)|(_ & R)]].
  - split; reflexivity.
  - destruct (rounded_pos_shape _ _ _ R) as [(m & e & ->)| ->]; split; reflexivity.
  - destruct (rounded_pos_shape _ _ _ R) as [(m & e & ->)| ->]; split; reflexivity.
Qed.

Lemma SFadd_inf_l s y : is_fz y = true -> SF64add (S754_infinity s) y = S754_infinity s.
Proof. destruct y; try discriminate; reflexivity. Qed.

(** Adding a finite float is monotone, whatever the rounding. *)
Lemma SFadd_mono x x' y :
  valid_binary x = true -> valid_binary x' = true -> valid_binary y = true ->
  is_fz y = true ->
  SFleb x x' = true -> SFleb (SF64add x y) (SF64add x' y) = true.
Proof.
  intros Vx Vx' Vy Fy H.
  destruct (is_fz x) eqn:Fx; destruct (is_fz x') eqn:Fx'.
  - eapply rounded_mono; [now apply add_rounded|now apply add_rounded|].
    pose proof (SFleb_ival _ _ Vx Vx' Fx Fx' H). lia.
  - assert (x' = S754_infinity false) as ->.
    { destruct x' as [|[]| |]; try discriminate; try reflexivity;
        destruct x as [[]|[]| |[]]; discriminate. }
    rewrite SFadd_inf_l by assumption.
    apply (rounded_bounds (ival x + ival y)). now apply add_rounded.
  - assert (x = S754_infinity true) as ->.
    { destruct x as [|[]| |]; try discriminate; try reflexivity;
        destruct x' as [[]|[]| |[]]; discriminate. }
    rewrite SFadd_inf_l by assumption.
    apply (rounded_bounds (ival x' + ival y)). now apply add_rounded.
  - destruct x as [|[]| |]; try discriminate;
      destruct x' as [|[]| |]; try discriminate;
      rewrite !SFadd_inf_l by assumption; reflexivity.
Qed.

(** *** The order of [SFcompare] *)

Lemma SFleb_of_ival x y :
  valid_binary x = true -> valid_binary y = true ->
  is_fz x = true -> is_fz y = true ->
  ival x <= ival y -> SFleb x y = true.
Proof.
  intros Vx Vy Fx Fy H.
  apply (rounded_mono (ival x) (ival y)); auto using valid_rounded.
Qed.

Lemma SFleb_trans x y z :
  valid_binary x = true -> valid_binary y = true -> valid_binary z = true ->
  SFleb x y = true -> SFleb y z = true -> SFleb x z = true.
Proof.
  intros Vx Vy Vz H1 H2.
  destruct (is_fz x) eqn:Fx, (is_fz y) eqn:Fy, (is_fz z) eqn:Fz.
  - apply SFleb_of_ival; auto.
    pose proof (SFleb_ival _ _ Vx Vy Fx Fy H1).
    pose proof (SFleb_ival _ _ Vy Vz Fy Fz H2). lia.
  - destruct z as [|[]| |]; try discriminate;
      destruct y as [[]|[]| |[]]; try discriminate;
      destruct x as [[]|[]| |[]]; try discriminate; reflexivity.
  - destruct y as [|[]| |]; try discriminate;
      destruct x as [[]|[]| |[]]; try discriminate;
      destruct z as [[]|[]| |[]]; discriminate.
  - destruct y as [|[]| |]; try discriminate;
      destruct x as [[]|[]| |[]]; try discriminate;
      destruct z as [|[]| |]; try discriminate; reflexivity.
  - destruct x as [|[]| |]; try discriminate;
      destruct y as [[]|[]| |[]]; try discriminate;
      destruct z as [[]|[]| |[]]; try discriminate; reflexivity.
  - destruct x as [|[]| |]; try discriminate;
      destruct y as [[]|[]| |[]]; try discriminate;
      destruct z as [|[]| |]; try discriminate; reflexivity.
  - destruct x as [|[]| |]; try discriminate;
      destruct y as [|[]| |]; try discriminate;
      destruct z as [[]|[]| |[]]; try discriminate; reflexivity.
  - destruct x as [|[]| |]; try discriminate;
      destruct y as [|[]| |]; try discriminate;
      destruct z as [|[]| |]; try discriminate; reflexivity.
Qed.

Lemma SFleb_refl_of x y : SFleb x y = true -> SFleb x x = true.
Proof.
  unfold SFleb, SFcompare.
  destruct x as [[]|[]| |[] m e]; try reflexivity; try discriminate; intros _;
    rewrite Z.compare_refl; fold (Pos.compare m m); rewrite Pos.compare_refl;
    reflexivity.
Qed.

Lemma SFcompare_antisym x y :
  SFcompare y x = option_map CompOpp (SFcompare x y).
Proof.
  unfold SFcompare.
  destruct x as [[]|[]| |[] mx ex], y as [[]|[]| |[] my ey]; simpl; try reflexivity;
    rewrite (Z.compare_antisym ex ey);
    destruct (ex ?= ey) eqn:C; simpl; try reflexivity;
    fold (Pos.compare mx my); fold (Pos.compare my mx);
    rewrite (Pos.compare_antisym mx my); destruct (mx ?= my)%positive; reflexivity.
Qed.

Lemma SFltb_not_leb x y : SFltb x y = true -> SFleb y x = false.
Proof.
  unfold SFltb, SFleb. rewrite (SFcompare_antisym x y).
  destruct (SFcompare x y) as [[]|]; simpl; congruence.
Qed.

Lemma SFadd_zero_leb x s z : SFleb (SF64add x (S754_zero s)) z = SFleb x z.
Proof.
  destruct x as [[]|[]| |[] mx ex], s; try reflexivity;
    destruct z as [[]|[]| |[]]; reflexivity.
Qed.

Lemma SFeqb_zero x : SFeqb x (S754_zero false) = true -> exists s, x = S754_zero s.
Proof. destruct x as [s|[]| |[]]; try discriminate. eauto. Qed.

Lemma SFadd_neg_le x y :
  valid_binary x = true -> valid_binary y = true -> is_fz x = true ->
  SFltb y (S754_zero false) = true -> SFleb (SF64add x y) x = true.
Proof.
  intros Vx Vy Fx Hy.
  destruct y as [sy|[]| |[] my ey]; try discriminate.
  - destruct x; try discriminate; reflexivity.
  - apply (rounded_mono (ival x + ival (S754_finite true my ey)) (ival x));
      [now apply add_rounded|now apply valid_rounded|].
    pose proof (bounded_inv _ _ Vy) as (He & _).
    pose proof (pow2_pos (ey - emin64)).
    unfold ival at 2. unfold cond_Zopp. nia.
Qed.

(** ** The same facts on primitive floats *)

Local Open Scope float_scope.

Lemma is_finite_fz x : is_finite x = true -> is_fz (Prim2SF x) = true.
Proof.
  unfold is_finite, is_nan, is_infinity.
  rewrite !eqb_spec, abs_spec.
  destruct (Prim2SF x) as [s|[]| |s m e]; try reflexivity; discriminate.
Qed.

Lemma leb_trans x y z : (x <=? y) = true -> (y <=? z) = true -> (x <=? z) = true.
Proof. rewrite !leb_spec. apply SFleb_trans; apply Prim2SF_valid. Qed.

Lemma leb_refl_of x y : (x <=? y) = true -> (x <=? x) = true.
Proof. rewrite !leb_spec. apply SFleb_refl_of. Qed.

Lemma ltb_not_leb x y : (x <? y) = true -> (y <=? x) = false.
Proof. rewrite ltb_spec, leb_spec. apply SFltb_not_leb. Qed.

Lemma add_zero_leb x d z : (d =? 0) = true -> (x + d <=? z) = (x <=? z).
Proof.
  rewrite eqb_spec, !leb_spec, add_spec. intros H.
  destruct (SFeqb_zero _ H) as (s & ->). apply SFadd_zero_leb.
Qed.

Lemma add_neg_leb x d :
  is_finite x = true -> (d <? 0) = true -> (x + d <=? x) = true.
Proof.
  rewrite ltb_spec, leb_spec, add_spec. intros Fx Hd.
  apply SFadd_neg_le; auto using Prim2SF_valid, is_finite_fz.
Qed.

Lemma sub_mono a b s :
  is_finite s = true -> (a <=? b) = true -> (a - s <=? b - s) = true.
Proof.
  rewrite !leb_spec, !sub_spec, !SFsub_add_opp. intros Fs H.
  apply SFadd_mono; auto using Prim2SF_valid.
  - rewrite valid_opp. apply Prim2SF_valid.
  - rewrite is_fz_opp. now apply is_finite_fz.
Qed.

End Binary64Facts.

(** * The timer and stopwatch properties *)

Import Binary64Facts.

Section MonotoneClock.
Local Open Scope float_scope.
Variable clock : PyTime.clock_t.
Hypothesis clock_mono : forall n, (clock n <=? clock (S n)) = true.

(** A clock that never steps back between two reads never steps back at all. *)
Lemma clock_mono_le i j : (i <= j)%nat -> (clock i <=? clock j) = true.
Proof.
  induction 1 as [|j Hij IH].
  - apply leb_refl_of with (clock (S i)), clock_mono.
  - apply leb_trans with (clock j); [exact IH|apply clock_mono].
Qed.

End MonotoneClock.

Lemma advancing_mono n :
(Clocks.advancing n <=? Clocks.advancing (S n))%float = true.
Proof. destruct n as [|[|n]]; reflexivity. Qed.

Section TimerProperties.
Local Open Scope float_scope.

(** What the code gives on the sample clocks. *)
Example timer_runs_to_deadline :
  fst (PyTime.eval (Timer.poll Clocks.advancing 2 (Timer.mk 100 5)) 1)
  = [false; true].
Proof. reflexivity. Qed.

Example stopwatch_reads_elapsed :
  PyTime.eval (Stopwatch.twice Clocks.advancing (Stopwatch.mk 100)) 1 = (3, 6).
Proof. reflexivity. Qed.

(** C1, as stated, fails: a positive duration below half the spacing of
    the floats around the start time is absorbed by the rounded sum
    [start_time + duration], and the timer is done at the construction
    instant.  Here the start is 1700000000 (spacing [2 ^ -22]) and the
    duration [2 ^ -30]. *)
Lemma C1_absorbed_duration_done_at_once :
  (0 <? 0x1p-30) = true /\
  (let self := PyTime.eval (Timer.__init__ Clocks.frozen 0x1p-30) 0 in
   Clocks.frozen 1%nat = Timer.start_time self /\
   fst (PyTime.eval (Timer.is_done Clocks.frozen self) 1) = true).
Proof. repeat split. Qed.

(** C1, amended: [is_done()] is true exactly when the clock reading is at
    least the binary64 sum [start_time + duration], where [start_time] is
    the reading taken at construction; a timer queried at its construction
    instant is not done whenever that sum is strictly above the start time,
    that is, whenever the duration is not absorbed by the rounding. *)
Theorem C1_is_done_iff_deadline (clock : PyTime.clock_t) (d : float) (k j : nat) :
  let self := PyTime.eval (Timer.__init__ clock d) k in
  let start := Timer.start_time self in
  start = clock k
  /\ (fst (PyTime.eval (Timer.is_done clock self) j) = true
      <-> (start + d <=? clock j) = true)
  /\ ((start <? start + d) = true -> clock j = start ->
      fst (PyTime.eval (Timer.is_done clock self) j) = false).
Proof.
  cbn. repeat split; try (intros H; exact H).
  intros Hlt ->. now apply ltb_not_leb.
Qed.

Lemma C1_is_done_iff_deadline_witness :
  fst (PyTime.eval (Timer.is_done Clocks.frozen
                      (PyTime.eval (Timer.__init__ Clocks.frozen 1.5) 0)) 1)
  = false.
Proof.
  apply (proj2 (proj2 (C1_is_done_iff_deadline Clocks.frozen 1.5 0 1)));
    reflexivity.
Defined.

(** C2, as stated, fails: [time.time()] is the wall clock, and a wall clock
    set back between two queries takes a done timer back to not done.
    A timer of 5 seconds started at 100 is done at 105 and not at 101. *)
Lemma C2_clock_set_back_reverts :
  let self := PyTime.eval (Timer.__init__ Clocks.set_back 5) 0 in
  fst (PyTime.eval (Timer.poll Clocks.set_back 2 self) 1) = [true; false].
Proof. reflexivity. Qed.

(** C2, amended: when the clock never steps back between two reads, a
    query that returned true is followed by true at every later query. *)
Theorem C2_done_stays_done (clock : PyTime.clock_t) (self : Timer.t) (i j : nat) :
  (forall n, (clock n <=? clock (S n)) = true) ->
  (i <= j)%nat ->
  fst (PyTime.eval (Timer.is_done clock self) i) = true ->
  fst (PyTime.eval (Timer.is_done clock self) j) = true.
Proof.
  intros mono Hij. cbn. intros Hi.
  apply leb_trans with (clock i); [exact Hi|].
  now apply clock_mono_le.
Qed.

Lemma C2_done_stays_done_witness :
  fst (PyTime.eval (Timer.is_done Clocks.advancing (Timer.mk 100 5)) 3) = true.
Proof.
  apply (C2_done_stays_done Clocks.advancing (Timer.mk 100 5) 2 3).
  - exact advancing_mono.
  - lia.
  - reflexivity.
Defined.

(** C3, as stated, fails: [__init__] stores the duration it is given and
    has no check; a negative duration constructs a timer. *)
Lemma C3_negative_duration_constructs :
  (-1 <? 0) = true /\
  PyTime.eval (Timer.new Clocks.frozen (-1)) 0
  = Returns (Timer.mk 1700000000 (-1)).
Proof. split; reflexivity. Qed.

(** C3, amended: for every duration, the negative ones included,
    construction returns a timer holding the clock reading and that
    duration; nothing is raised. *)
Theorem C3_construction_accepts_any_duration
  (clock : PyTime.clock_t) (d : float) (k : nat) :
  Timer.new clock d k = (Returns (Timer.mk (clock k) d), S k).
Proof. reflexivity. Qed.

(** C4, as stated, fails: with the wall clock set back between the
    construction (reading 105) and the first query (reading 101), a timer
    of duration 0 is not done. *)
Lemma C4_zero_duration_clock_set_back :
  let self := PyTime.eval (Timer.__init__ Clocks.set_back 0) 1 in
  Timer.start_time self = 105 /\
  fst (PyTime.eval (Timer.is_done Clocks.set_back self) 2) = false.
Proof. split; reflexivity. Qed.

(** C4, amended: a timer of duration 0 (either zero) is done at every
    query whose clock reading is not below the reading at construction. *)
Theorem C4_zero_duration_done (clock : PyTime.clock_t) (d : float) (k j : nat) :
  (d =? 0) = true ->
  (clock k <=? clock j) = true ->
  fst (PyTime.eval
         (Timer.is_done clock (PyTime.eval (Timer.__init__ clock d) k)) j)
  = true.
Proof.
  intros Hd Hle. cbn. now rewrite add_zero_leb.
Qed.

Lemma C4_zero_duration_done_witness :
  fst (PyTime.eval
         (Timer.is_done Clocks.advancing
            (PyTime.eval (Timer.__init__ Clocks.advancing 0) 0)) 1)
  = true.
Proof.
  apply (C4_zero_duration_done Clocks.advancing 0 0 1); reflexivity.
Defined.

(** C7: [is_done] assigns no attribute.  After any number of calls the
    object is the one [__init__] built: the start reading and the
    duration given at construction. *)
Theorem C7_is_done_keeps_the_timer
  (clock : PyTime.clock_t) (d : float) (k0 n k : nat) :
  let self := PyTime.eval (Timer.__init__ clock d) k0 in
  let self' := snd (PyTime.eval (Timer.poll clock n self) k) in
  self' = self /\ Timer.start_time self' = clock k0 /\ Timer.duration self' = d.
Proof.
  cbv zeta.
  assert (H : forall self m, snd (PyTime.eval (Timer.poll clock n self) m) = self).
  { unfold PyTime.eval.
    induction n as [|n' IH]; intros self m; [reflexivity|].
    cbn. unfold PyTime.bind, PyTime.ret. specialize (IH self (S m)).
    destruct (Timer.poll clock n' self (S m)) as [[bs self''] m'].
    exact IH. }
  rewrite H. repeat split.
Qed.

(** C10, as stated, fails: the first query of a timer of negative duration
    is not done when the wall clock was set back in between (construction
    at 105 with duration -1, query at 101). *)
Lemma C10_negative_duration_clock_set_back :
  (-1 <? 0) = true /\
  PyTime.eval (Timer.new Clocks.set_back (-1)) 1 = Returns (Timer.mk 105 (-1)) /\
  fst (PyTime.eval (Timer.is_done Clocks.set_back (Timer.mk 105 (-1))) 2) = false.
Proof. repeat split. Qed.

(** C10, amended: construction succeeds for every duration; a timer of
    negative duration, built at a finite clock reading, is done at every
    query whose reading is not below the reading at construction. *)
Theorem C10_negative_duration_done
  (clock : PyTime.clock_t) (d : float) (k j : nat) :
  Timer.new clock d k = (Returns (Timer.mk (clock k) d), S k)
  /\ ((d <? 0) = true -> is_finite (clock k) = true ->
      (clock k <=? clock j) = true ->
      fst (PyTime.eval (Timer.is_done clock (Timer.mk (clock k) d)) j) = true).
Proof.
  split; [reflexivity|]. intros Hd Hf Hle. cbn.
  apply leb_trans with (clock k); [|exact Hle].
  now apply add_neg_leb.
Qed.

Lemma C10_negative_duration_done_witness :
  fst (PyTime.eval (Timer.is_done Clocks.advancing (Timer.mk 100 (-2))) 1) = true.
Proof.
  apply (proj2 (C10_negative_duration_done Clocks.advancing (-2) 0 1));
    reflexivity.
Defined.

End TimerProperties.

Section StopwatchProperties.
Local Open Scope float_scope.

(** C5, as stated, fails: with the wall clock set back between the two
    calls (readings 105, then 101, start 100) the second value is smaller. *)
Lemma C5_clock_set_back_elapsed_decreases :
  let sw := PyTime.eval (Stopwatch.__init__ Clocks.set_back) 0 in
  PyTime.eval (Stopwatch.twice Clocks.set_back sw) 1 = (5, 1)
  /\ (1 <? 5) = true.
Proof. split; reflexivity. Qed.

(** C5, amended: for a stopwatch started at a finite clock reading, when
    the clock reading of the second call is not below that of the first,
    the second value is not below the first: the rounded subtraction keeps
    the order of the readings. *)
Theorem C5_elapsed_never_decreases (clock : PyTime.clock_t) (k0 k : nat) :
  is_finite (clock k0) = true ->
  (clock k <=? clock (S k)) = true ->
  let sw := PyTime.eval (Stopwatch.__init__ clock) k0 in
  let laps := PyTime.eval (Stopwatch.twice clock sw) k in
  (fst laps <=? snd laps) = true.
Proof.
  intros Hf Hle. cbn. now apply sub_mono.
Qed.

Lemma C5_elapsed_never_decreases_witness :
  (fst (PyTime.eval (Stopwatch.twice Clocks.advancing (Stopwatch.mk 100)) 1)
   <=? snd (PyTime.eval (Stopwatch.twice Clocks.advancing (Stopwatch.mk 100)) 1))
  = true.
Proof.
  apply (C5_elapsed_never_decreases Clocks.advancing 0 1); reflexivity.
Defined.

End StopwatchProperties.

(** * The replica roles *)

Section RoleProperties.
Import ReplicaStateEnum.
Local Open Scope Z_scope.

(** C8: the role type has the three members FOLLOWER, CANDIDATE and LEADER
    and no other; they are distinct, carry nothing but their value 0, 1, 2,
    and a lookup by any other value raises. *)
Theorem C8_three_roles :
  (forall r : ReplicaState, r = FOLLOWER \/ r = CANDIDATE \/ r = LEADER)
  /\ FOLLOWER <> CANDIDATE /\ FOLLOWER <> LEADER /\ CANDIDATE <> LEADER
  /\ (forall r, In r members) /\ NoDup members /\ length members = 3%nat
  /\ (forall r, of_value (value r) = Returns r)
  /\ (forall v, of_value v = Raises ValueError <-> ~ 0 <= v <= 2).
Proof.
  repeat split; try discriminate.
  - intros []; auto.
  - intros []; simpl; auto.
  - repeat constructor; simpl; intuition discriminate.
  - intros []; reflexivity.
  - intros H Hv. unfold of_value in H.
    assert (Hc : v = 0 \/ v = 1 \/ v = 2) by lia.
    destruct Hc as [-> |[-> | ->]]; discriminate.
  - intros Hv. unfold of_value, members, find, value.
    destruct (Z.eqb_spec 0 v); [lia|].
    destruct (Z.eqb_spec 1 v); [lia|].
    destruct (Z.eqb_spec 2 v); [lia|]. reflexivity.
Qed.

End RoleProperties.

Section ControllerProperties.
Import ElectionController.
Local Open Scope Z_scope.

Lemma after_term_le s e : term s <= term (after s e).
Proof.
  unfold after, step.
  destruct e as [| |t| |t]; destruct (role s); simpl; try lia.
  all: try (destruct (Z.leb_spec (term s) t); simpl; lia).
  all: destruct (Z.ltb_spec (term s) t); simpl; lia.
Qed.

Lemma run_term_le es : forall s, term s <= term (run s es).
Proof.
  unfold run. induction es as [|e es IH]; intros s; simpl fold_left.
  - lia.
  - pose proof (after_term_le s e). specialize (IH (after s e)). lia.
Qed.

(** C9: over any sequence of events the term never decreases, and an
    applied event that takes the replica into the CANDIDATE role leaves it
    with a strictly larger term. *)
Theorem C9_term_never_decreases :
  (forall s es, term s <= term (run s es))
  /\ (forall s e s', enters_candidate s e s' -> term s < term s').
Proof.
  split; [intros s es; apply run_term_le|].
  intros s e s' [[out Hstep] Hrole]. unfold step in Hstep.
  destruct e as [| |t| |t]; destruct (role s); try discriminate;
    try (injection Hstep as <- _; simpl in *; try discriminate; lia).
  all: try (destruct (term s <=? t); try discriminate;
            injection Hstep as <- _; discriminate).
  all: destruct (term s <? t); try discriminate;
    injection Hstep as <- _; discriminate.
Qed.

Lemma C9_term_never_decreases_witness :
  term startup < term (after startup election_timer_expires).
Proof.
  apply (proj2 C9_term_never_decreases startup election_timer_expires).
  split; [eexists; reflexivity|reflexivity].
Defined.

End ControllerProperties.

(** * More facts about binary64 arithmetic

  Monotonicity of the sum in each operand, the sign of a difference, and
  the cases where a sum or a difference is exact. *)

Module Binary64More.
Import Binary64 Binary64Facts.
Local Open Scope Z_scope.

Lemma SFadd_comm x y : SF64add x y = SF64add y x.
Proof.
  unfold SF64add, SFadd.
  destruct x as [[]|[]| |sx mx ex], y as [[]|[]| |sy my ey]; try reflexivity.
  cbv zeta. rewrite (Z.min_comm ey ex). f_equal. apply Z.add_comm.
Qed.

Lemma SFadd_mono_r x y y' :
  valid_binary x = true -> valid_binary y = true -> valid_binary y' = true ->
  is_fz x = true ->
  SFleb y y' = true -> SFleb (SF64add x y) (SF64add x y') = true.
Proof.
  intros Vx Vy Vy' Fx H. rewrite (SFadd_comm x y), (SFadd_comm x y').
  now apply SFadd_mono.
Qed.

Lemma ival_opp x : ival (SFopp x) = - ival x.
Proof. destruct x as [| | |[] m e]; simpl; lia. Qed.

Lemma SFadd_nonneg_le x y :
  valid_binary x = true -> valid_binary y = true -> is_fz x = true ->
  SFleb (S754_zero false) y = true -> SFleb x (SF64add x y) = true.
Proof.
  intros Vx Vy Fx Hy.
  destruct (is_fz y) eqn:Fy.
  - apply (rounded_mono (ival x) (ival x + ival y));
      [now apply valid_rounded|now apply add_rounded|].
    pose proof (SFleb_ival (S754_zero false) y eq_refl Vy eq_refl Fy Hy) as H.
    change (ival (S754_zero false)) with 0 in H. lia.
  - destruct y as [|[]| |]; try discriminate.
    destruct x as [[]| | |[]]; try discriminate; reflexivity.
Qed.

Lemma SFeqb_leb x y : SFeqb x y = SFleb x y && SFleb y x.
Proof.
  unfold SFeqb, SFleb. rewrite (SFcompare_antisym x y).
  destruct (SFcompare x y) as [[]|]; reflexivity.
Qed.

Lemma SFcompare_refl_nan x : SFeqb x x = false -> x = S754_nan.
Proof.
  unfold SFeqb, SFcompare.
  destruct x as [[]|[]| |[] m e]; try reflexivity; try discriminate;
    rewrite Z.compare_refl; fold (Pos.compare m m); rewrite Pos.compare_refl;
    discriminate.
Qed.

Lemma SFadd_nan_r x : SF64add x S754_nan = S754_nan.
Proof. destruct x as [[]|[]| |[]]; reflexivity. Qed.

(** The sign of a difference is the order of its operands: a nonzero exact
    difference never rounds to zero. *)
Lemma SFsub_nonneg b s :
  valid_binary b = true -> valid_binary s = true -> is_fz s = true ->
  SFleb (S754_zero false) (SF64sub b s) = SFleb s b.
Proof.
  intros Vb Vs Fs. rewrite SFsub_add_opp.
  destruct (is_fz b) eqn:Fb.
  - assert (R : rounded (ival b + ival (SFopp s)) (SF64add b (SFopp s))).
    { apply add_rounded; rewrite ?valid_opp, ?is_fz_opp; auto. }
    rewrite ival_opp in R.
    destruct (Z.le_gt_cases (ival s) (ival b)) as [Hle|Hgt].
    + rewrite (SFleb_of_ival s b) by auto.
      apply (rounded_mono 0 (ival b + - ival s)); [|exact R|lia].
      left. split; [reflexivity|eauto].
    + transitivity false.
      * destruct R as [(E & _)|[(P & _)|(_ & R)]]; try lia.
        destruct (rounded_pos_shape _ _ _ R) as [(m & e & ->)| ->]; reflexivity.
      * symmetry. destruct (SFleb s b) eqn:E; [|reflexivity].
        pose proof (SFleb_ival s b Vs Vb Fs Fb E). lia.
  - destruct b as [|[]| |]; try discriminate;
      destruct s as [[]| | |[]]; try discriminate; reflexivity.
Qed.

Lemma SFsub_nonpos b s :
  valid_binary b = true -> valid_binary s = true -> is_fz s = true ->
  SFleb (SF64sub b s) (S754_zero false) = SFleb b s.
Proof.
  intros Vb Vs Fs. rewrite SFsub_add_opp.
  destruct (is_fz b) eqn:Fb.
  - assert (R : rounded (ival b + ival (SFopp s)) (SF64add b (SFopp s))).
    { apply add_rounded; rewrite ?valid_opp, ?is_fz_opp; auto. }
    rewrite ival_opp in R.
    destruct (Z.le_gt_cases (ival b) (ival s)) as [Hle|Hgt].
    + rewrite (SFleb_of_ival b s) by auto.
      apply (rounded_mono (ival b + - ival s) 0); [exact R| |lia].
      left. split; [reflexivity|eauto].
    + transitivity false.
      * destruct R as [(E & _)|[(_ & R)|(P & _)]]; try lia.
        destruct (rounded_pos_shape _ _ _ R) as [(m & e & ->)| ->]; reflexivity.
      * symmetry. destruct (SFleb b s) eqn:E; [|reflexivity].
        pose proof (SFleb_ival b s Vb Vs Fb Fs E). lia.
  - destruct b as [|[]| |]; try discriminate;
      destruct s as [[]| | |[]]; try discriminate; reflexivity.
Qed.

(** A value that fits the 53 bits at some exponent is rounded to itself,
    unless it is beyond the largest float. *)
Lemma rounded_pos_exact sg N r c j :
  rounded_pos sg N r -> N = c * 2 ^ j -> 0 <= j -> 0 < c < 2 ^ 53 ->
  (r = S754_infinity sg /\ 2 ^ 53 * 2 ^ 2045 <= N)
  \/ (is_fz r = true /\ ival r = cond_Zopp sg N).
Proof.
  intros (q & k & rb & t & (Hk & Hs & Ht & Hq & Hc) & ->) HN Hj Hcb.
  replace (k + 1) with (Z.succ k) in Hs by lia.
  rewrite Z.pow_succ_r in Hs by lia.
  pose proof (pow2_pos k Hk) as HPk.
  pose proof (pow2_pos j Hj) as HPj.
  assert (Hb : 0 <= Z.b2z rb <= 1) by (destruct rb; simpl; lia).
  assert (Hkj : k <= j).
  { destruct (Z.le_gt_cases k j) as [H|H]; [exact H|exfalso].
    assert (Hq' : 2 ^ 52 <= q) by (apply Hc; lia).
    assert (HD : 2 ^ k = 2 ^ j * 2 ^ (k - j)).
    { rewrite <- pow2_split by lia. f_equal. lia. }
    assert (HD2 : 2 <= 2 ^ (k - j)).
    { change 2 with (2 ^ 1) at 1. apply pow2_le. lia. }
    set (P := 2 ^ j) in *. set (D := 2 ^ (k - j)) in *.
    rewrite HD in *. subst N.
    assert (2 ^ 52 * (2 * (P * D)) <= 2 * (c * P)) by nia.
    assert (c * P < 2 ^ 53 * P) by nia.
    nia. }
  assert (HD : 2 ^ j = 2 ^ k * 2 ^ (j - k)).
  { rewrite <- pow2_split by lia. f_equal. lia. }
  pose proof (pow2_pos (j - k)) as HPD.
  set (P := 2 ^ k) in *. set (D := 2 ^ (j - k)) in *.
  rewrite HD in HN.
  assert (Ht0 : t = 0).
  { assert (E : t = P * (2 * c * D - 2 * q - Z.b2z rb)) by (subst N; nia).
    destruct (Z.eq_dec (2 * c * D - 2 * q - Z.b2z rb) 0) as [Z0|NZ]; [nia|].
    exfalso. assert (2 * c * D - 2 * q - Z.b2z rb <= -1 \/ 1 <= 2 * c * D - 2 * q - Z.b2z rb) by lia.
    nia. }
  subst t.
  assert (Hrb : rb = false).
  { destruct rb; [exfalso|reflexivity]. simpl Z.b2z in *.
    assert (2 * (c * D) = 2 * q + 1) by (subst N; nia). lia. }
  subst rb. simpl Z.b2z in *.
  assert (HNq : N = q * P) by lia.
  unfold round_up, pack. simpl andb. rewrite Z.add_0_r.
  destruct (Z.eqb_spec q (2 ^ 53)) as [E|_]; [lia|].
  destruct (Z.leb_spec (k + emin64) 971) as [L|L].
  - right. split; [reflexivity|]. unfold ival.
    rewrite Z2Pos.id by lia.
    replace (k + emin64 - emin64) with k by lia. fold P. now rewrite HNq.
  - left. split; [reflexivity|].
    assert (Hq' : 2 ^ 52 <= q) by (apply Hc; unfold emin64 in L; lia).
    assert (HPk' : 2 ^ 2046 <= 2 ^ k) by (apply pow2_le; unfold emin64 in L; lia).
    change (2 ^ 2046) with (2 * 2 ^ 2045) in HPk'. fold P in HPk'.
    set (B := 2 ^ 2045) in *. 
    assert (0 < B) by (apply pow2_pos; lia).
    change (2 ^ 53) with (2 ^ 52 * 2). rewrite HNq. nia.
Qed.

Lemma valid_ival_bound x :
  valid_binary x = true -> is_fz x = true -> ival x < 2 ^ 53 * 2 ^ 2045.
Proof.
  intros V F.
  assert (HB : 0 < 2 ^ 2045) by (apply pow2_pos; lia).
  destruct x as [s| | |s m e]; try discriminate.
  - change (ival (S754_zero s)) with 0. lia.
  - apply bounded_inv in V. destruct V as (He & Hm & _).
    pose proof (pow2_pos (e - emin64)) as HP.
    assert (HL : 2 ^ (e - emin64) <= 2 ^ 2045)
      by (apply pow2_le; unfold emin64 in *; lia).
    unfold ival, cond_Zopp.
    set (P := 2 ^ (e - emin64)) in *. set (B := 2 ^ 2045) in *.
    destruct s; nia.
Qed.


(** *** The same facts on primitive floats *)

Local Open Scope float_scope.

Lemma is_nan_SF d : is_nan d = true -> Prim2SF d = S754_nan.
Proof.
  unfold is_nan. rewrite eqb_spec. intros H.
  apply SFcompare_refl_nan. now apply negb_true_iff.
Qed.

Lemma add_nan_leb x d z : is_nan d = true -> (x + d <=? z) = false.
Proof.
  intros H. rewrite leb_spec, add_spec, (is_nan_SF d H), SFadd_nan_r. reflexivity.
Qed.

Lemma add_mono_l a b d :
  is_finite d = true -> (a <=? b) = true -> (a + d <=? b + d) = true.
Proof.
  rewrite !leb_spec, !add_spec. intros Fd H.
  apply SFadd_mono; auto using Prim2SF_valid, is_finite_fz.
Qed.

Lemma add_mono_r s d1 d2 :
  is_finite s = true -> (d1 <=? d2) = true -> (s + d1 <=? s + d2) = true.
Proof.
  rewrite !leb_spec, !add_spec. intros Fs H.
  apply SFadd_mono_r; auto using Prim2SF_valid, is_finite_fz.
Qed.

Lemma add_nonneg_leb x d :
  is_finite x = true -> (0 <=? d) = true -> (x <=? x + d) = true.
Proof.
  rewrite !leb_spec, add_spec. intros Fx Hd.
  apply SFadd_nonneg_le; auto using Prim2SF_valid, is_finite_fz.
Qed.

Lemma add_inf_leb x z : is_finite z = true -> (x + infinity <=? z) = false.
Proof.
  intros Fz. apply is_finite_fz in Fz. rewrite leb_spec, add_spec.
  change (Prim2SF infinity) with (S754_infinity false).
  destruct (Prim2SF z) as [[]| | |[]]; try discriminate;
    destruct (Prim2SF x) as [[]|[]| |[]]; reflexivity.
Qed.

Lemma sub_nonneg b s : is_finite s = true -> (0 <=? b - s) = (s <=? b).
Proof.
  intros Fs. rewrite !leb_spec, sub_spec.
  apply SFsub_nonneg; auto using Prim2SF_valid, is_finite_fz.
Qed.

Lemma sub_nonpos b s : is_finite s = true -> (b - s <=? 0) = (b <=? s).
Proof.
  intros Fs. rewrite !leb_spec, sub_spec.
  apply SFsub_nonpos; auto using Prim2SF_valid, is_finite_fz.
Qed.

Lemma eqb_leb x y : (x =? y) = (x <=? y) && (y <=? x).
Proof. rewrite eqb_spec, !leb_spec. apply SFeqb_leb. Qed.

Lemma sub_zero_iff b s : is_finite s = true -> (b - s =? 0) = (b =? s).
Proof.
  intros Fs. rewrite !eqb_leb, sub_nonneg, sub_nonpos by assumption.
  reflexivity.
Qed.

Lemma sub_mono_r b s1 s2 :
  is_finite b = true -> (s1 <=? s2) = true -> (b - s2 <=? b - s1) = true.
Proof.
  rewrite !leb_spec, !sub_spec, !SFsub_add_opp. intros Fb H.
  apply SFadd_mono_r; rewrite ?valid_opp; auto using Prim2SF_valid, is_finite_fz.
  now rewrite SFleb_opp.
Qed.


End Binary64More.

(** * Further properties of the timer *)

Section TimerEdges.
Import Binary64More.
Local Open Scope float_scope.

(** X1: a timer of non-negative duration, built at a finite clock reading,
    is done only at readings that are at least its start reading: no query
    at a reading below the start returns true. *)
Theorem X1_done_only_from_start (clock : PyTime.clock_t) (d : float) (k j : nat) :
  is_finite (clock k) = true ->
  (0 <=? d) = true ->
  fst (PyTime.eval
         (Timer.is_done clock (PyTime.eval (Timer.__init__ clock d) k)) j) = true ->
  (clock k <=? clock j) = true.
Proof.
  intros Hf Hd. cbn. intros Hdone.
  apply leb_trans with (clock k + d); [|exact Hdone].
  now apply add_nonneg_leb.
Qed.

Lemma X1_done_only_from_start_witness :
  (Clocks.advancing 0%nat <=? Clocks.advancing 1%nat) = true.
Proof.
  apply (X1_done_only_from_start Clocks.advancing 3 0 1); reflexivity.
Defined.

(** X2: a timer whose duration is NaN is never done, whatever the clock
    reads: every comparison with the NaN deadline is false. *)
Theorem X2_nan_duration_never_done (clock : PyTime.clock_t) (d : float) (k j : nat) :
  is_nan d = true ->
  fst (PyTime.eval
         (Timer.is_done clock (PyTime.eval (Timer.__init__ clock d) k)) j) = false.
Proof.
  intros Hd. cbn. now apply add_nan_leb.
Qed.

Lemma X2_nan_duration_never_done_witness :
  fst (PyTime.eval
         (Timer.is_done Clocks.advancing
            (PyTime.eval (Timer.__init__ Clocks.advancing nan) 0)) 2) = false.
Proof.
  apply (X2_nan_duration_never_done Clocks.advancing nan 0 2); reflexivity.
Defined.

(** X3: a timer of infinite duration is not done at any finite clock
    reading, whatever reading it was built at. *)
Theorem X3_infinite_duration_never_done (clock : PyTime.clock_t) (k j : nat) :
  is_finite (clock j) = true ->
  fst (PyTime.eval
         (Timer.is_done clock (PyTime.eval (Timer.__init__ clock infinity) k)) j)
  = false.
Proof.
  intros Hf. cbn. now apply add_inf_leb.
Qed.

Lemma X3_infinite_duration_never_done_witness :
  fst (PyTime.eval
         (Timer.is_done Clocks.advancing
            (PyTime.eval (Timer.__init__ Clocks.advancing infinity) 0)) 2)
  = false.
Proof.
  apply (X3_infinite_duration_never_done Clocks.advancing 0 2); reflexivity.
Defined.

(** X4: of two timers built at the same finite clock reading, the one with
    the smaller duration is done at every reading at which the other is:
    the rounded deadline is monotone in the duration. *)
Theorem X4_shorter_timer_done_no_later
  (clock : PyTime.clock_t) (d1 d2 : float) (k j : nat) :
  is_finite (clock k) = true ->
  (d1 <=? d2) = true ->
  fst (PyTime.eval
         (Timer.is_done clock (PyTime.eval (Timer.__init__ clock d2) k)) j) = true ->
  fst (PyTime.eval
         (Timer.is_done clock (PyTime.eval (Timer.__init__ clock d1) k)) j) = true.
Proof.
  intros Hf Hd. cbn. intros Hdone.
  apply leb_trans with (clock k + d2); [|exact Hdone].
  now apply add_mono_r.
Qed.

Lemma X4_shorter_timer_done_no_later_witness :
  fst (PyTime.eval
         (Timer.is_done Clocks.advancing
            (PyTime.eval (Timer.__init__ Clocks.advancing 2) 0)) 2) = true.
Proof.
  apply (X4_shorter_timer_done_no_later Clocks.advancing 2 5 0 2); reflexivity.
Defined.

(** X5: of two timers with the same finite duration, the one built at the
    smaller clock reading is done at every reading at which the other is:
    building a new timer later never brings the deadline forward. *)
Theorem X5_earlier_timer_done_no_later
  (clock : PyTime.clock_t) (d : float) (k1 k2 j : nat) :
  is_finite d = true ->
  (clock k1 <=? clock k2) = true ->
  fst (PyTime.eval
         (Timer.is_done clock (PyTime.eval (Timer.__init__ clock d) k2)) j) = true ->
  fst (PyTime.eval
         (Timer.is_done clock (PyTime.eval (Timer.__init__ clock d) k1)) j) = true.
Proof.
  intros Hf Hk. cbn. intros Hdone.
  apply leb_trans with (clock k2 + d); [|exact Hdone].
  now apply add_mono_l.
Qed.

Lemma X5_earlier_timer_done_no_later_witness :
  fst (PyTime.eval
         (Timer.is_done Clocks.advancing
            (PyTime.eval (Timer.__init__ Clocks.advancing 3) 0)) 2) = true.
Proof.
  apply (X5_earlier_timer_done_no_later Clocks.advancing 3 0 1 2); reflexivity.
Defined.

(** X6: a timer of non-negative duration, built at a finite clock reading
    and queried at that same reading, is done exactly when the rounded sum
    of the start and the duration equals the start. *)
Theorem X6_done_at_once_iff_absorbed
  (clock : PyTime.clock_t) (d : float) (k j : nat) :
  is_finite (clock k) = true ->
  (0 <=? d) = true ->
  clock j = clock k ->
  fst (PyTime.eval
         (Timer.is_done clock (PyTime.eval (Timer.__init__ clock d) k)) j)
  = (clock k + d =? clock k).
Proof.
  intros Hf Hd Hj. cbn. rewrite Hj, eqb_leb.
  rewrite (add_nonneg_leb _ _ Hf Hd). now rewrite andb_true_r.
Qed.

Lemma X6_done_at_once_iff_absorbed_witness :
  fst (PyTime.eval
         (Timer.is_done Clocks.frozen
            (PyTime.eval (Timer.__init__ Clocks.frozen 0x1p-30) 0)) 1)
  = (Clocks.frozen 0%nat + 0x1p-30 =? Clocks.frozen 0%nat).
Proof.
  apply (X6_done_at_once_iff_absorbed Clocks.frozen 0x1p-30 0 1); reflexivity.
Defined.

End TimerEdges.

(** * Further properties of the stopwatch *)

Section StopwatchEdges.
Import Binary64More.
Local Open Scope float_scope.

(** X7: for a stopwatch started at a finite clock reading, the value of
    [time_elapsed] is non-negative exactly when the clock reading of the
    call is not below the start reading; a reading below the start gives a
    value that is not [>= 0]. *)
Theorem X7_elapsed_sign (clock : PyTime.clock_t) (k0 j : nat) :
  is_finite (clock k0) = true ->
  (0 <=? fst (PyTime.eval
                (Stopwatch.time_elapsed clock
                   (PyTime.eval (Stopwatch.__init__ clock) k0)) j))
  = (clock k0 <=? clock j).
Proof.
  intros Hf. cbn. now apply sub_nonneg.
Qed.

Lemma X7_elapsed_sign_witness :
  (0 <=? fst (PyTime.eval
                (Stopwatch.time_elapsed Clocks.set_back
                   (PyTime.eval (Stopwatch.__init__ Clocks.set_back) 1)) 2))
  = (Clocks.set_back 1%nat <=? Clocks.set_back 2%nat).
Proof.
  apply (X7_elapsed_sign Clocks.set_back 1 2); reflexivity.
Defined.

(** X8: for a stopwatch started at a finite clock reading, [time_elapsed]
    is zero exactly when the clock reading of the call equals the start
    reading: two different readings never give a difference that rounds to
    zero. *)
Theorem X8_elapsed_zero_iff_same_reading (clock : PyTime.clock_t) (k0 j : nat) :
  is_finite (clock k0) = true ->
  (fst (PyTime.eval
          (Stopwatch.time_elapsed clock
             (PyTime.eval (Stopwatch.__init__ clock) k0)) j) =? 0)
  = (clock j =? clock k0).
Proof.
  intros Hf. cbn. now apply sub_zero_iff.
Qed.

Lemma X8_elapsed_zero_iff_same_reading_witness :
  (fst (PyTime.eval
          (Stopwatch.time_elapsed Clocks.frozen
             (PyTime.eval (Stopwatch.__init__ Clocks.frozen) 0)) 1) =? 0)
  = (Clocks.frozen 1%nat =? Clocks.frozen 0%nat).
Proof.
  apply (X8_elapsed_zero_iff_same_reading Clocks.frozen 0 1); reflexivity.
Defined.

(** X9: of two stopwatches read at the same finite clock reading, the one
    started at the larger reading gives a value that is not larger. *)
Theorem X9_later_stopwatch_reads_no_more
  (clock : PyTime.clock_t) (k1 k2 j : nat) :
  is_finite (clock j) = true ->
  (clock k1 <=? clock k2) = true ->
  (fst (PyTime.eval
          (Stopwatch.time_elapsed clock
             (PyTime.eval (Stopwatch.__init__ clock) k2)) j)
   <=? fst (PyTime.eval
              (Stopwatch.time_elapsed clock
                 (PyTime.eval (Stopwatch.__init__ clock) k1)) j)) = true.
Proof.
  intros Hf Hk. cbn. now apply sub_mono_r.
Qed.

Lemma X9_later_stopwatch_reads_no_more_witness :
  (fst (PyTime.eval
          (Stopwatch.time_elapsed Clocks.advancing
             (PyTime.eval (Stopwatch.__init__ Clocks.advancing) 1)) 2)
   <=? fst (PyTime.eval
              (Stopwatch.time_elapsed Clocks.advancing
                 (PyTime.eval (Stopwatch.__init__ Clocks.advancing) 0)) 2)) = true.
Proof.
  apply (X9_later_stopwatch_reads_no_more Clocks.advancing 0 1 2); reflexivity.
Defined.



End StopwatchEdges.

(** * Lookup of a role by value *)

Section RoleLookup.
Import ReplicaStateEnum.
Local Open Scope Z_scope.

(** X11: a lookup by value returns a member exactly when that member has the
    value looked up; in particular different members have different values. *)
Theorem X11_of_value_iff_value (v : Z) (r : ReplicaState) :
  of_value v = Returns r <-> value r = v.
Proof.
  split.
  - unfold of_value, members, find, value.
    destruct (Z.eqb_spec 0 v); [intros [= <-]; assumption|].
    destruct (Z.eqb_spec 1 v); [intros [= <-]; assumption|].
    destruct (Z.eqb_spec 2 v); [intros [= <-]; assumption|discriminate].
  - intros <-. destruct r; reflexivity.
Qed.

End RoleLookup.

(** * The value returned by [time_elapsed] *)

Module Binary64Value.

(** The value of a finite float, as an integer number of units of
    [2 ^ -1074] (the least positive binary64 number); 0 for the others. *)
Definition units (x : float) : Z := Binary64.ival (Prim2SF x).

(** A wall clock read a little after the epoch (a machine whose clock is not
    set yet, at about 12.345678), then set forward to 1700000000. *)
Definition set_forward : PyTime.clock_t :=
  fun k => match k with
           | O => 0x1.8b0fcb4f1e4b4p+3%float
           | _ => 1700000000%float
           end.

End Binary64Value.

Module Binary64Nearest.
Import Binary64 Binary64Facts Binary64More Binary64Value.
Local Open Scope Z_scope.

Lemma pack_ival sg m e :
  0 < m <= 2 ^ 53 -> emin64 <= e -> is_fz (pack sg m e) = true ->
  ival (pack sg m e) = cond_Zopp sg (m * 2 ^ (e - emin64)).
Proof.
  intros Hm He. unfold pack.
  destruct (Z.eqb_spec m (2 ^ 53)) as [E|E].
  - destruct (e + 1 <=? 971); [intros _|discriminate].
    unfold ival. f_equal. subst m.
    replace (e + 1 - emin64) with (1 + (e - emin64)) by lia.
    rewrite pow2_split, Z.mul_assoc by lia. f_equal.
  - destruct (e <=? 971); [intros _|discriminate].
    unfold ival. rewrite Z2Pos.id by lia. reflexivity.
Qed.

(** No float lies strictly between the two neighbours of a cut. *)
Lemma no_float_inside q k z :
  0 <= k -> 0 < q -> (0 < k -> 2 ^ 52 <= q) ->
  valid_binary z = true -> is_fz z = true ->
  Z.abs (ival z) <= q * 2 ^ k \/ (q + 1) * 2 ^ k <= Z.abs (ival z).
Proof.
  intros Hk Hq Hc Vz Fz.
  pose proof (pow2_pos k Hk) as HP.
  destruct z as [s| | |s m e]; try discriminate.
  - left. change (ival (S754_zero s)) with 0. simpl Z.abs. nia.
  - apply bounded_inv in Vz. destruct Vz as (He & Hm & _).
    pose proof (pow2_pos (e - emin64)) as HJ.
    assert (HA : Z.abs (ival (S754_finite s m e)) = Zpos m * 2 ^ (e - emin64)).
    { unfold ival, cond_Zopp. destruct s; [rewrite Z.abs_opp|]; apply Z.abs_eq; nia. }
    rewrite HA.
    destruct (Z.le_gt_cases k (e - emin64)) as [Hle|Hgt].
    + (* a multiple of [2 ^ k] *)
      replace (e - emin64) with ((e - emin64 - k) + k) by lia.
      rewrite pow2_split by lia.
      pose proof (pow2_pos (e - emin64 - k)) as HD.
      set (P := 2 ^ k) in *. set (D := 2 ^ (e - emin64 - k)) in *.
      destruct (Z.le_gt_cases (Zpos m * D) q) as [H|H]; [left|right]; nia.
    + (* below the binade of the cut *)
      left. assert (Hq' : 2 ^ 52 <= q) by (apply Hc; lia).
      assert (HD : 2 ^ k = 2 ^ (e - emin64) * 2 ^ (k - (e - emin64))).
      { rewrite <- pow2_split by lia. f_equal. lia. }
      assert (HD2 : 2 <= 2 ^ (k - (e - emin64))).
      { change 2 with (2 ^ 1) at 1. apply pow2_le. lia. }
      rewrite HD.
      set (J := 2 ^ (e - emin64)) in *. set (D := 2 ^ (k - (e - emin64))) in *.
      assert (Zpos m * J <= 2 ^ 53 * J) by nia.
      assert (2 ^ 53 * J <= q * 2 * J) by nia.
      assert (q * 2 * J <= q * (J * D)) by nia.
      lia.
Qed.

Lemma round_up_cases rb t q :
  (round_up rb (negb (t =? 0)) q = 0 /\ (rb = false \/ t = 0))
  \/ (round_up rb (negb (t =? 0)) q = 1 /\ rb = true).
Proof.
  unfold round_up. destruct rb; simpl andb; [|left; auto].
  destruct (Z.eqb_spec t 0); simpl negb; simpl orb; [|right; auto].
  destruct (Z.odd q); [right|left]; auto.
Qed.

Lemma rounded_pos_nearest sg N r z :
  rounded_pos sg N r -> is_fz r = true ->
  valid_binary z = true -> is_fz z = true ->
  Z.abs (ival r - cond_Zopp sg N) <= Z.abs (ival z - cond_Zopp sg N).
Proof.
  intros (q & k & rb & t & (Hk & Hs & Ht & Hq & Hc) & ->) Fr Vz Fz.
  pose proof (round_up_01 rb (negb (t =? 0)) q) as Hu.
  assert (Hm : 0 < q + round_up rb (negb (t =? 0)) q <= 2 ^ 53) by lia.
  assert (He : emin64 <= k + emin64) by lia.
  rewrite (pack_ival sg _ _ Hm He Fr).
  replace (k + emin64 - emin64) with k by lia.
  pose proof (no_float_inside q k z Hk (proj1 Hq) Hc Vz Fz) as Hz.
  replace (k + 1) with (Z.succ k) in Hs by lia.
  rewrite Z.pow_succ_r in Hs by lia.
  pose proof (pow2_pos k Hk) as HP.
  set (P := 2 ^ k) in *.
  replace ((q + 1) * P) with (q * P + P) in Hz by ring.
  replace (q * (2 * P)) with (2 * (q * P)) in Hs by ring.
  destruct (round_up_cases rb t q) as [(-> & Hd)|(-> & ->)].
  - rewrite Z.add_0_r. set (lo := q * P) in *.
    assert (Hhalf : 2 * N - 2 * lo <= P).
    { destruct Hd as [-> | ->]; simpl Z.b2z in Hs; [lia|].
      destruct rb; simpl Z.b2z in Hs; lia. }
    assert (Hlow : 2 * lo <= 2 * N) by (destruct rb; simpl Z.b2z in Hs; lia).
    unfold cond_Zopp. destruct sg; lia.
  - replace ((q + 1) * P) with (q * P + P) by ring.
    set (lo := q * P) in *. simpl Z.b2z in Hs.
    unfold cond_Zopp. destruct sg; lia.
Qed.

Lemma rounded_nearest V r z :
  rounded V r -> is_fz r = true ->
  valid_binary z = true -> is_fz z = true ->
  Z.abs (ival r - V) <= Z.abs (ival z - V).
Proof.
  intros [(-> & s & ->)|[(P & R)|(P & R)]] Fr Vz Fz.
  - change (ival (S754_zero s)) with 0. lia.
  - exact (rounded_pos_nearest false V r z R Fr Vz Fz).
  - pose proof (rounded_pos_nearest true (- V) r z R Fr Vz Fz) as H.
    unfold cond_Zopp in H. now rewrite Z.opp_involutive in H.
Qed.

(** Between a non-negative float and its double the difference is exact. *)
Lemma SFsub_exact s b :
  valid_binary s = true -> valid_binary b = true ->
  valid_binary (SF64add s s) = true ->
  is_fz s = true -> is_fz b = true ->
  SFleb (S754_zero false) s = true -> SFleb s b = true ->
  SFleb b (SF64add s s) = true ->
  is_fz (SF64sub b s) = true /\ ival (SF64sub b s) = ival b - ival s.
Proof.
  intros Vs Vb Vr2 Fs Fb Hs0 Hsb Hb2.
  pose proof (SFleb_ival (S754_zero false) s eq_refl Vs eq_refl Fs Hs0) as I0.
  change (ival (S754_zero false)) with 0 in I0.
  pose proof (SFleb_ival _ _ Vs Vb Fs Fb Hsb) as I1.
  pose proof (valid_ival_bound s Vs Fs) as Is.
  assert (Vopp : valid_binary (SFopp s) = true) by now rewrite valid_opp.
  assert (Fopp : is_fz (SFopp s) = true) by now rewrite is_fz_opp.
  pose proof (add_rounded b (SFopp s) Vb Vopp Fb Fopp) as R.
  rewrite <- SFsub_add_opp, ival_opp in R.
  destruct R as [(E & z & ->)|[(P & R)|(P & _)]]; [| |lia].
  { split; [reflexivity|]. change (ival (S754_zero z)) with 0. lia. }
  (* a positive difference: [s] and [b] are positive, [b] on the grid of [s] *)
  destruct s as [ss| | |ss ms es]; try discriminate.
  { (* [s] is a zero, so is its double, and [b] is at most zero *)
    exfalso. change (ival (S754_zero ss)) with 0 in *.
    assert (Ez : exists z, SF64add (S754_zero ss) (S754_zero ss) = S754_zero z)
      by (destruct ss; simpl; eauto).
    destruct Ez as (z & Ez). rewrite Ez in Hb2.
    pose proof (SFleb_ival b (S754_zero z) Vb eq_refl Fb eq_refl Hb2) as H.
    change (ival (S754_zero z)) with 0 in H. lia. }
  destruct ss; [discriminate|].
  pose proof (bounded_inv _ _ Vs) as (Hes & Hms & _).
  destruct b as [sb| | |sb mb eb]; try discriminate.
  pose proof (bounded_inv _ _ Vb) as (Heb & _).
  assert (Hgrid : exists c', ival (S754_finite sb mb eb) = c' * 2 ^ (es - emin64)).
  { revert Hsb. unfold SFleb, SFcompare.
    destruct sb; [discriminate|].
    destruct (Z.compare_spec es eb) as [C|C|C]; try discriminate; intros _;
      exists (Zpos mb * 2 ^ (eb - es)); unfold ival, cond_Zopp;
      rewrite <- Z.mul_assoc, <- pow2_split by lia; do 2 f_equal; lia. }
  destruct Hgrid as (c' & Ec').
  set (j := es - emin64) in *.
  assert (Hj : 0 <= j) by (unfold j; lia).
  pose proof (pow2_pos j Hj) as HPj.
  assert (Ec : ival (S754_finite false ms es) = Zpos ms * 2 ^ j) by reflexivity.
  (* the reading is at most twice the start *)
  assert (I2 : ival (S754_finite sb mb eb) <= 2 * ival (S754_finite false ms es)).
  { pose proof (add_rounded _ _ Vs Vs Fs Fs) as R2.
    destruct R2 as [(E & _)|[(_ & R2)|(P2 & _)]]; [lia| |lia].
    destruct (rounded_pos_exact false _ _ (Zpos ms) (j + 1) R2)
      as [(_ & Big)|(F2 & E2)]; try lia.
    - rewrite Ec, pow2_split, Z.pow_1_r by lia. ring.
    - pose proof (valid_ival_bound _ Vb Fb). lia.
    - pose proof (SFleb_ival _ _ Vb Vr2 Fb F2 Hb2) as H.
      unfold cond_Zopp in E2. lia. }
  destruct (rounded_pos_exact false _ _ (c' - Zpos ms) j R)
    as [(_ & Big)|(F & E)]; try lia.
  - rewrite Ec, Ec' in *. nia.
  - split; [exact F|]. unfold cond_Zopp in E. lia.
Qed.

Lemma SFeqb_refl_fz x : is_fz x = true -> SFeqb x x = true.
Proof.
  destruct x as [[]|[]| |[] m e]; try discriminate; try reflexivity; intros _;
    unfold SFeqb, SFcompare; rewrite Z.compare_refl; fold (Pos.compare m m);
    rewrite Pos.compare_refl; reflexivity.
Qed.

(** *** The same facts on primitive floats *)

Local Open Scope float_scope.

Lemma fz_is_finite x : is_fz (Prim2SF x) = true -> is_finite x = true.
Proof.
  unfold is_finite, is_nan, is_infinity.
  rewrite !eqb_spec, abs_spec. intros F.
  rewrite (SFeqb_refl_fz _ F).
  destruct (Prim2SF x) as [[]| | |[] m e]; try discriminate; reflexivity.
Qed.

Lemma sub_nearest b s z :
  is_finite s = true -> is_finite b = true -> is_finite (b - s) = true ->
  is_finite z = true ->
  (Z.abs (units (b - s) - (units b - units s))
   <= Z.abs (units z - (units b - units s)))%Z.
Proof.
  intros Fs Fb Fv Fz. apply is_finite_fz in Fs, Fb, Fv, Fz.
  unfold units. rewrite sub_spec in *.
  apply rounded_nearest; auto using Prim2SF_valid.
  replace (ival (Prim2SF b) - ival (Prim2SF s))%Z
    with (ival (Prim2SF b) + ival (SFopp (Prim2SF s)))%Z
    by (rewrite ival_opp; lia).
  rewrite SFsub_add_opp.
  apply add_rounded; rewrite ?valid_opp, ?is_fz_opp; auto using Prim2SF_valid.
Qed.

Lemma sub_exact s b :
  is_finite s = true -> is_finite b = true -> (0 <=? s) = true ->
  (s <=? b) = true -> (b <=? s + s) = true ->
  is_finite (b - s) = true /\ units (b - s) = (units b - units s)%Z.
Proof.
  intros Fs Fb H0 Hsb Hb2. apply is_finite_fz in Fs, Fb.
  rewrite !leb_spec, ?add_spec in *.
  change (Prim2SF 0) with (S754_zero false) in H0.
  destruct (SFsub_exact (Prim2SF s) (Prim2SF b)) as (F & E);
    auto using Prim2SF_valid.
  - rewrite <- add_spec. apply Prim2SF_valid.
  - rewrite <- sub_spec in F, E. split; [now apply fz_is_finite|exact E].
Qed.

End Binary64Nearest.

Section ElapsedValue.
Import Binary64Value Binary64Nearest.
Local Open Scope float_scope.

(** C6, as stated, fails: the value is the rounded difference, not the
    exact one.  With the start read at about 12.345678 and the call at
    1700000000, the exact difference needs more than 53 bits and the value
    returned differs from it. *)
Lemma C6_clock_set_forward_difference_rounded :
  let sw := PyTime.eval (Stopwatch.__init__ set_forward) 0 in
  let v := fst (PyTime.eval (Stopwatch.time_elapsed set_forward sw) 1) in
  is_finite (Stopwatch.start_time sw) = true
  /\ (0 <=? Stopwatch.start_time sw) = true
  /\ (Stopwatch.start_time sw <=? set_forward 1%nat) = true
  /\ (units v =? units (set_forward 1%nat) - units (Stopwatch.start_time sw))%Z
     = false.
Proof. repeat split; vm_compute; reflexivity. Qed.

(** C6, amended: a call of [time_elapsed] returns the binary64 difference of
    the clock reading of the call and the reading taken at construction, and
    leaves the stopwatch as it was.  For finite readings and a finite
    result, no finite float is nearer to the exact difference than the value
    returned; and the value is the exact difference when the start reading
    is non-negative and the reading of the call lies between the start and
    twice the start. *)
Theorem C6_elapsed_is_rounded_difference (clock : PyTime.clock_t) (k0 k : nat) :
  let sw := PyTime.eval (Stopwatch.__init__ clock) k0 in
  let v := fst (PyTime.eval (Stopwatch.time_elapsed clock sw) k) in
  let exact := (units (clock k) - units (clock k0))%Z in
  Stopwatch.time_elapsed clock sw k = ((clock k - clock k0, sw), S k)
  /\ (is_finite (clock k0) = true -> is_finite (clock k) = true ->
      is_finite v = true ->
      forall z, is_finite z = true ->
                (Z.abs (units v - exact) <= Z.abs (units z - exact))%Z)
  /\ (is_finite (clock k0) = true -> is_finite (clock k) = true ->
      (0 <=? clock k0) = true ->
      (clock k0 <=? clock k) = true ->
      (clock k <=? clock k0 + clock k0) = true ->
      is_finite v = true /\ units v = exact).
Proof.
  cbn. split; [reflexivity|split].
  - intros Fs Fb Fv z Fz. now apply sub_nearest.
  - intros Fs Fb H0 H1 H2. now apply sub_exact.
Qed.

Lemma C6_elapsed_is_rounded_difference_witness :
  units (fst (PyTime.eval
                (Stopwatch.time_elapsed Clocks.advancing
                   (PyTime.eval (Stopwatch.__init__ Clocks.advancing) 0)) 1))
  = (units (Clocks.advancing 1%nat) - units (Clocks.advancing 0%nat))%Z.
Proof.
  apply (proj2 (proj2 (C6_elapsed_is_rounded_difference Clocks.advancing 0 1)));
    reflexivity.
Defined.

End ElapsedValue.
